(** * CAA-based ACME server discovery: a shallow embedding of
      [certbot/_internal/auto_server.py] and the properties of its
      parser, tree walk, issuer selection, intersection and URL mapping. *)

From Stdlib Require Import ZArith NArith Ascii String List Bool Lia Permutation Sorted.
From stdpp Require Import base option list gmap strings.

Import ListNotations.
Local Open Scope Z_scope.

(** ** Byte strings

    A Python [bytes] value is a finite sequence of 8-bit characters, which is
    what [String.string] is; the decoded ASCII text of [issuer_to_directory]
    has one character per byte and is kept in the same type. *)

Module Bytes.

Abbreviation bytes := string (only parsing).

Definition code (c : ascii) : N := N_of_ascii c.

(** The characters removed by [bytes.strip()] with no argument, and skipped
    by [int()] around a literal: space, \t, \n, \v, \f, \r. *)
Definition is_space (c : ascii) : bool :=
  (code c =? 32)%N || ((9 <=? code c)%N && (code c <=? 13)%N).

Fixpoint lstrip (s : bytes) : bytes :=
  match s with
  | EmptyString => EmptyString
  | String c s' => if is_space c then lstrip s' else s
  end.

Fixpoint rstrip (s : bytes) : bytes :=
  match s with
  | EmptyString => EmptyString
  | String c s' =>
      match rstrip s' with
      | EmptyString => if is_space c then EmptyString else String c EmptyString
      | r => String c r
      end
  end.

(** [b.strip()] *)
Definition strip (s : bytes) : bytes := rstrip (lstrip s).

(** [b.split(sep)] for a one-byte separator: the list of maximal pieces
    between separators; it has one element more than there are separators. *)
Fixpoint split (sep : ascii) (s : bytes) : list bytes :=
  match s with
  | EmptyString => [EmptyString]
  | String c s' =>
      if Ascii.eqb c sep then EmptyString :: split sep s'
      else match split sep s' with
           | seg :: rest => String c seg :: rest
           | [] => [String c EmptyString]
           end
  end.

(** [b.split(sep, 1)]: at most one cut, at the leftmost separator. *)
Fixpoint split1 (sep : ascii) (s : bytes) : list bytes :=
  match s with
  | EmptyString => [EmptyString]
  | String c s' =>
      if Ascii.eqb c sep then [EmptyString; s']
      else match split1 sep s' with
           | seg :: rest => String c seg :: rest
           | [] => [String c EmptyString]
           end
  end.

Definition is_digit (c : ascii) : bool :=
  (48 <=? code c)%N && (code c <=? 57)%N.

Definition digit_value (c : ascii) : Z := Z.of_N (code c) - 48.

(** The digit part of a base-10 literal: decimal digits, with single
    underscores allowed between digits.  Returns the value and the number
    of digits read. *)
Fixpoint digits (acc : Z) (n : nat) (after_underscore : bool) (s : bytes)
  : option (Z * nat) :=
  match s with
  | EmptyString => if after_underscore then None else Some (acc, n)
  | String c s' =>
      if is_digit c then digits (acc * 10 + digit_value c) (S n) false s'
      else if Ascii.eqb c "_" then
             if after_underscore then None else digits acc n true s'
      else None
  end.

(** Default of [sys.get_int_max_str_digits()]; 0 would switch the limit off. *)
Definition int_max_str_digits : nat := 4300.

(** [int(b)] on a bytes object: [None] stands for [ValueError].
    Surrounding whitespace is skipped, one sign is allowed, the literal
    must start with a digit. *)
Definition int (b : bytes) : option Z :=
  let s := strip b in
  let '(negative, body) :=
    match s with
    | String "-" r => (true, r)
    | String "+" r => (false, r)
    | _ => (false, s)
    end in
  match body with
  | EmptyString => None
  | String c _ =>
      if is_digit c then
        match digits 0 0 false body with
        | Some (v, n) =>
            if (0 <? int_max_str_digits)%nat && (int_max_str_digits <? n)%nat
            then None
            else Some (if negative then - v else v)
        | None => None
        end
      else None
  end.

Definition is_ascii (c : ascii) : bool := (code c <? 128)%N.

(** [b.decode("ascii")]: [None] stands for [UnicodeDecodeError]. *)
Definition decode_ascii (b : bytes) : option string :=
  if forallb is_ascii (list_ascii_of_string b) then Some b else None.

Definition is_upper (c : ascii) : bool :=
  (65 <=? code c)%N && (code c <=? 90)%N.

Definition lower_char (c : ascii) : ascii :=
  if is_upper c then ascii_of_N (code c + 32) else c.

(** [s.lower()] on ASCII text: only A-Z change. *)
Fixpoint lower (s : string) : string :=
  match s with
  | EmptyString => EmptyString
  | String c s' => String (lower_char c) (lower s')
  end.

End Bytes.

Import Bytes.

(** ** Errors

    Every failure of the module is an [errors.Error] carrying a message; the
    constructors name the message families.  [ValueError] and [IndexError]
    are the built-in exceptions that list unpacking and indexing could
    raise inside [CAAIssue.parse], and [NoResolverConfiguration] is the
    exception of the DNS library that [dns.resolver.Resolver()] raises when
    the system has no usable resolver configuration; nothing in the module
    catches it. *)

Inductive error : Type :=
  | DomainParseError            (* "Failed to parse domain ..." *)
  | DNSResolutionError          (* "Failed to resolve CAA record for ..." *)
  | NoCAARecordsError           (* "No CAA records found for ..." *)
  | InvalidPriorityError        (* "Invalid priority for ..." *)
  | NoCommonIssuersError        (* "No common issuers found" *)
  | InvalidIssuerEncodingError  (* "Invalid issuer: ..." *)
  | ValueError
  | IndexError
  | NoResolverConfiguration.

Inductive result (A : Type) : Type :=
  | Ok (a : A)
  | Raise (e : error).

Arguments Ok {A} a.
Arguments Raise {A} e.

Definition rbind {A B} (r : result A) (k : A -> result B) : result B :=
  match r with
  | Ok a => k a
  | Raise e => Raise e
  end.

Notation "x <~ e ;; k" := (rbind e (fun x => k))
  (at level 100, e at next level, right associativity).

(** [list(map(f, l))] for an [f] that may raise. *)
Fixpoint map_result {A B} (f : A -> result B) (l : list A) : result (list B) :=
  match l with
  | [] => Ok []
  | x :: l' => y <~ f x ;; ys <~ map_result f l' ;; Ok (y :: ys)
  end.

(** ** CAAIssue *)

Record CAAIssue : Type := mkCAAIssue {
  caa_issuer : bytes;
  parameters : gmap string (option bytes)
}.

(** Body of the [for p in parameters] loop: one dictionary store. *)
Definition store_parameter (parameters_out : gmap string (option bytes)) (p : bytes)
  : result (gmap string (option bytes)) :=
  let parts := split1 "=" p in
  match parts with
  | [] => Raise IndexError
  | [name] => Ok (<[strip name := None]> parameters_out)
  | name :: value :: _ => Ok (<[strip name := Some (strip value)]> parameters_out)
  end.

Fixpoint store_parameters (parameters_out : gmap string (option bytes)) (ps : list bytes)
  : result (gmap string (option bytes)) :=
  match ps with
  | [] => Ok parameters_out
  | p :: ps' => m <~ store_parameter parameters_out p ;; store_parameters m ps'
  end.

(** [CAAIssue.parse] *)
Definition parse (value : bytes) : result CAAIssue :=
  match split ";" value with
  | [] => Raise ValueError
  | issuer :: params =>
      parameters_out <~ store_parameters ∅ params ;;
      Ok (mkCAAIssue (strip issuer) parameters_out)
  end.

(** [CAAIssue.get_property]; Python's [None] is [None]. *)
Definition get_property (self : CAAIssue) (tag : bytes) (default : option bytes)
  : option bytes :=
  match parameters self !! tag with
  | Some v => v
  | None => default
  end.

(** ** issuer_to_directory *)

Definition issuer_to_directory (issuer : bytes) : result string :=
  match decode_ascii issuer with
  | Some text =>
      Ok (String.append "https://" (String.append (lower text) "/.well-known/acme"))
  | None => Raise InvalidIssuerEncodingError
  end.

(** ** Issuer

    [__eq__] and [__hash__] look at the identifier only, so two values that
    differ in priority are one set member. *)

Record Issuer : Type := mkIssuer {
  issuer : bytes;
  priority : Z
}.

(** [a == b] on Issuer values *)
Definition issuer_eq (a b : Issuer) : bool := String.eqb (issuer a) (issuer b).

(** ** The built-in set, holding Issuer values

    A set is kept as the list of its members in the order they were
    inserted; members are pairwise different for [issuer_eq].  The order in
    which the interpreter iterates over the set depends on the hashes of the
    identifiers and is a parameter of the model ([set_iteration_order]
    below). *)

Module PySet.

Definition t := list Issuer.

(** [x in s] *)
Definition contains (s : t) (x : Issuer) : bool := existsb (issuer_eq x) s.

(** [s.add(x)]: a member equal to [x] is kept, [x] is not stored. *)
Definition add (s : t) (x : Issuer) : t :=
  if contains s x then s else s ++ [x].

(** [set(l)] *)
Definition of_list (l : list Issuer) : t := fold_left add l [].

(** [s.intersection_update(other)] for an [other] that is not a set (here
    a list): the interpreter walks through [other] and puts into a fresh
    set each element of [other] that is found in [s]; the fresh set then
    replaces the contents of [s]. *)
Definition intersection_update (s : t) (other : list Issuer) : t :=
  fold_left (fun acc x => if contains s x then add acc x else acc) other [].

End PySet.

(** [sorted(xs, key=lambda i: i.priority)]: the built-in sort is stable, and
    a stable sort has one possible output, which insertion from the right
    computes. *)
Fixpoint insert_by_priority (x : Issuer) (l : list Issuer) : list Issuer :=
  match l with
  | [] => [x]
  | y :: l' =>
      if priority x <=? priority y then x :: l
      else y :: insert_by_priority x l'
  end.

Fixpoint sorted_by_priority (l : list Issuer) : list Issuer :=
  match l with
  | [] => []
  | x :: l' => insert_by_priority x (sorted_by_priority l')
  end.

(** ** DNS names and CAA records

    [dns.name.from_text] with its default origin yields absolute names; a
    name is kept as its labels, leftmost first, without the final empty
    label, so that [dns.name.root] is the empty list and [name.parent()]
    of a name other than the root is its tail. *)

Definition Name := list bytes.

Definition root : Name := [].

(** [name.is_wild()] *)
Definition is_wild (name : Name) : bool :=
  match name with
  | label :: _ => String.eqb label "*"
  | [] => false
  end.

(** A CAA rdata as the DNS library exposes it. *)
Record Rdata : Type := mkRdata {
  flags : Z;
  tag : bytes;
  value : bytes
}.

(** What one [resolver.resolve(name, CAA, raise_on_no_answer=False)] does:
    it raises a [DNSException], or it returns an answer whose [rrset] is
    [None] or a record set. *)
Inductive resolve_outcome : Type :=
  | DNSException
  | Answer (rrset : option (list Rdata)).

(** truth value of an [rrset]: [None] and the empty set are false *)
Definition rrset_truthy (rr : option (list Rdata)) : bool :=
  match rr with
  | Some (_ :: _) => true
  | _ => false
  end.

(** The collaborators of [auto_discover_server], over a state [W] of the
    outside world (the DNS, the resolver's cache, the random generator). *)
Class Collaborators (W : Type) : Type := {
  (** [dns.resolver.Resolver()]: it reads the configuration of the system;
      [false] stands for [NoResolverConfiguration] *)
  new_resolver : W -> bool * W;
  (** [dns.name.from_text]; [None] stands for a [DNSException] *)
  from_text : string -> option Name;
  (** [resolver.resolve(name, dns.rdatatype.CAA, raise_on_no_answer=False)] *)
  resolve : Name -> W -> resolve_outcome * W;
  (** [rrset.processing_order()] of the DNS library *)
  processing_order : list Rdata -> W -> list Rdata * W;
  (** the order in which the interpreter iterates over a set *)
  set_iteration_order : PySet.t -> list Issuer
}.

(** ** State and errors

    The state is the outside world together with the list of names that
    were looked up so far. *)

Record State (W : Type) : Type := mkState {
  world : W;
  queries : list Name
}.

Arguments mkState {W} world queries.
Arguments world {W} s.
Arguments queries {W} s.

Definition M (W A : Type) : Type := State W -> result A * State W.

Definition ret {W A} (a : A) : M W A := fun s => (Ok a, s).

Definition raise {W A} (e : error) : M W A := fun s => (Raise e, s).

Definition bind {W A B} (m : M W A) (k : A -> M W B) : M W B :=
  fun s =>
    match m s with
    | (Ok a, s') => k a s'
    | (Raise e, s') => (Raise e, s')
    end.

Definition lift {W A} (r : result A) : M W A := fun s => (r, s).

Notation "x <- e ;; k" := (bind e (fun x => k))
  (at level 100, e at next level, right associativity).

(** ** auto_discover_server *)

Section AutoServer.

Context {W : Type} `{C : Collaborators W}.

(** [resolver = dns.resolver.Resolver()], outside every [try]. *)
Definition make_resolver : M W unit :=
  fun s =>
    let '(built, w) := new_resolver (world s) in
    let s' := mkState w (queries s) in
    if built then (Ok tt, s') else (Raise NoResolverConfiguration, s').

(** One lookup inside the [try] of the walk. *)
Definition resolve_caa (name : Name) : M W (option (list Rdata)) :=
  fun s =>
    let '(outcome, w) := resolve name (world s) in
    let s' := mkState w (queries s ++ [name]) in
    match outcome with
    | DNSException => (Raise DNSResolutionError, s')
    | Answer rrset => (Ok rrset, s')
    end.

(** The [while name != dns.name.root] loop; its value is that of [rr] when
    the loop is left. *)
Fixpoint tree_walk (name : Name) (rr : option (list Rdata))
  : M W (option (list Rdata)) :=
  match name with
  | [] => ret rr
  | _ :: parent =>
      rr <- resolve_caa name ;;
      if rrset_truthy rr then ret rr else tree_walk parent rr
  end.

(** Where the walk starts. *)
Definition start_name (domain : Name) : Name :=
  if is_wild domain then tl domain else domain.

(** The walk and the check after it. *)
Definition find_caa (domain : Name) : M W (list Rdata) :=
  rr <- tree_walk (start_name domain) None ;;
  match rr with
  | Some (r :: rs) => ret (r :: rs)
  | _ => raise NoCAARecordsError
  end.

(** [list(map(lambda r: CAAIssue.parse(r.value), filter(lambda r: r.tag == t, rr)))] *)
Definition parsed_with_tag (t : bytes) (rr : list Rdata) : result (list CAAIssue) :=
  map_result (fun r => parse (value r)) (List.filter (fun r => String.eqb (tag r) t) rr).

(** The choice of [relevant_set]. *)
Definition choose_relevant_set (wild : bool) (issue_wild_set issue_set : list CAAIssue)
  : result (list CAAIssue) :=
  if wild then
    match issue_wild_set, issue_set with
    | _ :: _, _ => Ok issue_wild_set
    | [], _ :: _ => Ok issue_set
    | [], [] => Raise NoCAARecordsError
    end
  else
    match issue_set with
    | _ :: _ => Ok issue_set
    | [] => Raise NoCAARecordsError
    end.

(** [rr.get_property(b"discovery", b"true") != b"true"] *)
Definition discovery_excluded (rr : CAAIssue) : bool :=
  match get_property rr "discovery" (Some "true"%string) with
  | Some v => negb (String.eqb v "true")
  | None => true
  end.

(** The priority of one record that passed the discovery test. *)
Definition resolve_priority (rr : CAAIssue) : result Z :=
  match get_property rr "priority" None with
  | None => Ok 0
  | Some text =>
      match Bytes.int text with
      | None => Raise InvalidPriorityError
      | Some p => if p <? 1 then Raise InvalidPriorityError else Ok p
      end
  end.

(** The [for rr in relevant_set] loop, [issuers] being the list built so far. *)
Fixpoint build_issuers (relevant_set : list CAAIssue) (issuers : list Issuer)
  : result (list Issuer) :=
  match relevant_set with
  | [] => Ok issuers
  | rr :: rest =>
      if discovery_excluded rr then build_issuers rest issuers
      else
        p <~ resolve_priority rr ;;
        build_issuers rest (issuers ++ [mkIssuer (caa_issuer rr) p])
  end.

(** From the ordered record set to the issuers of one domain. *)
Definition select_issuers (wild : bool) (rr : list Rdata) : result (list Issuer) :=
  issue_wild_set <~ parsed_with_tag "issuewild" rr ;;
  issue_set <~ parsed_with_tag "issue" rr ;;
  relevant_set <~ choose_relevant_set wild issue_wild_set issue_set ;;
  build_issuers relevant_set [].

(** [rr.processing_order()], which may consult the outside world. *)
Definition ordered (rr : list Rdata) : M W (list Rdata) :=
  fun s =>
    let '(rr', w) := processing_order rr (world s) in
    (Ok rr', mkState w (queries s)).

(** The body of the [for domain in config.domains] loop. *)
Definition process_domain (text : string) : M W (Name * list Issuer) :=
  match from_text text with
  | None => raise DomainParseError
  | Some domain =>
      rr <- find_caa domain ;;
      rr <- ordered rr ;;
      issuers <- lift (select_issuers (is_wild domain) rr) ;;
      ret (domain, issuers)
  end.

Fixpoint collect_domains (config_domains : list string)
    (domains : list (Name * list Issuer)) : M W (list (Name * list Issuer)) :=
  match config_domains with
  | [] => ret domains
  | text :: rest =>
      entry <- process_domain text ;;
      collect_domains rest (domains ++ [entry])
  end.

(** The [for _, issuers in domains] loop. *)
Definition issuers_intersection (per_domain : list (list Issuer)) : option PySet.t :=
  fold_left
    (fun acc issuers =>
       match acc with
       | None => Some (PySet.of_list issuers)
       | Some s => Some (PySet.intersection_update s issuers)
       end)
    per_domain None.

Definition auto_discover_server (config_domains : list string) : M W (list bytes) :=
  resolver <- make_resolver ;;
  domains <- collect_domains config_domains [] ;;
  match issuers_intersection (map snd domains) with
  | Some (x :: s) =>
      ret (map issuer (sorted_by_priority (set_iteration_order (x :: s))))
  | _ => raise NoCommonIssuersError
  end.

End AutoServer.

(** ** The parser as the specification words it

    The pieces of a value are described by positions of the separators
    rather than by the library's [split]. *)

Module ParseSpec.

(** [sep.join(pieces)] *)
Fixpoint join (sep : ascii) (pieces : list bytes) : bytes :=
  match pieces with
  | [] => EmptyString
  | [p] => p
  | p :: ps => String.append p (String sep (join sep ps))
  end.

(** [c] occurs in [s] *)
Fixpoint occurs (c : ascii) (s : bytes) : bool :=
  match s with
  | EmptyString => false
  | String d s' => Ascii.eqb d c || occurs c s'
  end.

(** Name and value of one property segment: cut at the first [=] when
    there is one, both sides trimmed; no value otherwise. *)
Definition property_of (segment : bytes) : bytes * option bytes :=
  match String.index 0 "=" segment with
  | Some i =>
      (strip (String.substring 0 i segment),
       Some (strip (String.substring (S i) (String.length segment - S i) segment)))
  | None => (strip segment, None)
  end.

(** The value the last assignment to [name] gave it, if there is one. *)
Definition last_assignment (name : bytes) (props : list (bytes * option bytes))
  : option (option bytes) :=
  snd <$> List.find (fun p => String.eqb (fst p) name) (rev props).

Definition all_space (s : bytes) : Prop :=
  Forall (fun c => is_space c = true) (list_ascii_of_string s).

Definition starts_with_space (s : bytes) : bool :=
  match s with
  | String c _ => is_space c
  | EmptyString => false
  end.

Fixpoint ends_with_space (s : bytes) : bool :=
  match s with
  | EmptyString => false
  | String c EmptyString => is_space c
  | String _ s' => ends_with_space s'
  end.

End ParseSpec.

(** ** A small world for examples

    Names are read by cutting at the dots, the DNS is a table from names to
    outcomes, and nothing changes between lookups. *)

Module Examples.

(** The empty text, [@] and [.] name the root; one dot at the end is
    allowed; any other empty label is refused.  Escapes, length limits and
    non-ASCII names are not handled. *)
Definition read_name (text : string) : option Name :=
  if String.eqb text "" || String.eqb text "@" || String.eqb text "." then Some root
  else
    let labels := split "." text in
    let labels :=
      match rev labels with
      | EmptyString :: front => rev front
      | _ => labels
      end in
    if existsb (String.eqb "") labels then None else Some labels.

Definition name_eqb (a b : Name) : bool :=
  bool_decide (a = b).

Definition zone := list (Name * resolve_outcome).

Definition lookup_zone (z : zone) (name : Name) : resolve_outcome :=
  match List.find (fun e => name_eqb (fst e) name) z with
  | Some e => snd e
  | None => Answer None
  end.

(** Records come back in the resolver's order and sets are iterated in
    insertion order. *)
Definition plain (z : zone) : Collaborators unit := {|
  new_resolver := fun w => (true, w);
  from_text := read_name;
  resolve := fun name w => (lookup_zone z name, w);
  processing_order := fun rr w => (rr, w);
  set_iteration_order := fun s => s
|}.

(** As [plain], with a processing order that turns the record set around. *)
Definition reordering (z : zone) : Collaborators unit := {|
  new_resolver := fun w => (true, w);
  from_text := read_name;
  resolve := fun name w => (lookup_zone z name, w);
  processing_order := fun rr w => (rev rr, w);
  set_iteration_order := fun s => s
|}.

(** As [plain], with sets iterated from their last member to their first. *)
Definition backwards (z : zone) : Collaborators unit := {|
  new_resolver := fun w => (true, w);
  from_text := read_name;
  resolve := fun name w => (lookup_zone z name, w);
  processing_order := fun rr w => (rr, w);
  set_iteration_order := fun s => rev s
|}.

(** As [plain], on a system without resolver configuration. *)
Definition unconfigured (z : zone) : Collaborators unit := {|
  new_resolver := fun w => (false, w);
  from_text := read_name;
  resolve := fun name w => (lookup_zone z name, w);
  processing_order := fun rr w => (rr, w);
  set_iteration_order := fun s => s
|}.

Definition start : State unit := mkState tt [].

Definition issue (v : bytes) : Rdata := mkRdata 0 "issue" v.
Definition issuewild (v : bytes) : Rdata := mkRdata 0 "issuewild" v.

Definition example_com : Name := ["example"%string; "com"%string].
Definition www_example_com : Name := ["www"%string; "example"%string; "com"%string].
Definition wild_example_com : Name := ["*"%string; "example"%string; "com"%string].
Definition example_org : Name := ["example"%string; "org"%string].

(** example.com authorises two CAs; example.org the same two with the
    priorities exchanged. *)
Definition two_zones : zone :=
  [ (example_com, Answer (Some [issue "ca1.example; priority=1"; issue "ca2.example; priority=2"]));
    (example_org, Answer (Some [issue "ca1.example; priority=2"; issue "ca2.example; priority=1"])) ].


(** The two domains authorise different CAs. *)
Definition disjoint_zones : zone :=
  [ (example_com, Answer (Some [issue "ca1.example"]));
    (example_org, Answer (Some [issue "ca2.example"])) ].

(** example.com authorises two CAs without priorities. *)
Definition flat : zone :=
  [ (example_com, Answer (Some [issue "ca1.example"; issue "ca2.example"])) ].

End Examples.


(** ** Vocabulary of the statements *)

(** Some issuer of the list has the identifier [id]. *)
Definition has_id (id : bytes) (l : list Issuer) : Prop :=
  exists x, In x l /\ issuer x = id.

(** The first issuer of the list that has the identifier [id]. *)
Definition first_with_id (id : bytes) (l : list Issuer) : option Issuer :=
  List.find (fun x => String.eqb id (issuer x)) l.

(** Ascending priorities. *)
Definition priority_le (a b : Issuer) : Prop := priority a <= priority b.

(** The issuers of one priority, in the order of the list. *)
Definition with_priority (p : Z) (l : list Issuer) : list Issuer :=
  List.filter (fun x => priority x =? p) l.

(** The walk as the specification describes it: from a name and a state of
    the world, the names looked up, the outcome and the world afterwards. *)
Inductive walks {W : Type} `{C : Collaborators W}
  : Name -> W -> list Name -> result (list Rdata) -> W -> Prop :=
  | walks_exhausted w :
      walks root w [] (Raise NoCAARecordsError) w
  | walks_failure label parent w w' :
      resolve (label :: parent) w = (DNSException, w') ->
      walks (label :: parent) w [label :: parent] (Raise DNSResolutionError) w'
  | walks_found label parent w w' r rs :
      resolve (label :: parent) w = (Answer (Some (r :: rs)), w') ->
      walks (label :: parent) w [label :: parent] (Ok (r :: rs)) w'
  | walks_climb label parent w w' rr names outcome w'' :
      resolve (label :: parent) w = (Answer rr, w') ->
      rrset_truthy rr = false ->
      walks parent w' names outcome w'' ->
      walks (label :: parent) w ((label :: parent) :: names) outcome w''.

(** The records of a tag, parsed; [parse] cannot fail, so the default is never used. *)
Definition parsed (v : bytes) : CAAIssue :=
  match parse v with
  | Ok c => c
  | Raise _ => mkCAAIssue EmptyString ∅
  end.

Definition records_with_tag (t : bytes) (rr : list Rdata) : list CAAIssue :=
  map (fun r => parsed (value r)) (List.filter (fun r => String.eqb (tag r) t) rr).

(** The sub-list the selection rule picks. *)
Definition chosen_records (wild : bool) (rr : list Rdata) : list CAAIssue :=
  if wild then
    match records_with_tag "issuewild" rr with
    | [] => records_with_tag "issue" rr
    | l => l
    end
  else records_with_tag "issue" rr.

(** The [discovery] property is present and is not the literal [true]. *)
Definition opted_out (c : CAAIssue) : Prop :=
  exists v, parameters c !! "discovery"%string = Some v /\ v <> Some "true"%string.

(** The records left by the discovery filter. *)
Definition surviving (l : list CAAIssue) : list CAAIssue :=
  List.filter (fun c => negb (discovery_excluded c)) l.

(** The issuer a surviving record gives. *)
Definition issuer_of_record (c : CAAIssue) : result Issuer :=
  p <~ resolve_priority c ;; Ok (mkIssuer (caa_issuer c) p).

(** The [priority] property has a value, and the value is not the literal
    of an integer that is at least 1. *)
Definition bad_priority (c : CAAIssue) : Prop :=
  exists text,
    parameters c !! "priority"%string = Some (Some text) /\
    (Bytes.int text = None \/ exists p, Bytes.int text = Some p /\ p < 1).

(** No whitespace at either end. *)
Definition trimmed (s : bytes) : Prop :=
  ParseSpec.starts_with_space s = false /\ ParseSpec.ends_with_space s = false.

(** What selection can see of a record set: tag and value of the [issue]
    and [issuewild] records, in order. *)
Definition visible_records (rr : list Rdata) : list (bytes * bytes) :=
  map (fun r => (tag r, value r))
    (List.filter
       (fun r => String.eqb (tag r) "issuewild" || String.eqb (tag r) "issue") rr).

(** The errors that [auto_discover_server] raises by itself. *)
Definition discovery_error (e : error) : Prop :=
  e = DomainParseError \/ e = DNSResolutionError \/ e = NoCAARecordsError \/
  e = InvalidPriorityError \/ e = NoCommonIssuersError.
(** * Properties *)

(** ** Splitting and trimming *)

Section BytesFacts.

Import ParseSpec.

Lemma split_not_nil sep s : split sep s <> [].
Proof.
  destruct s as [|c s]; simpl; [discriminate|].
  destruct (Ascii.eqb c sep); [discriminate|].
  destruct (split sep s); discriminate.
Qed.

Lemma join_cons_char sep c p ps :
  join sep (String c p :: ps) = String c (join sep (p :: ps)).
Proof. destruct ps; reflexivity. Qed.

(** Putting the separators back gives the input. *)
Lemma join_split sep s : join sep (split sep s) = s.
Proof.
  induction s as [|c s IH]; simpl; [reflexivity|].
  destruct (Ascii.eqb c sep) eqn:E.
  - apply Ascii.eqb_eq in E; subst c.
    destruct (split sep s) as [|p ps] eqn:Es; [now apply split_not_nil in Es|].
    change (join sep (EmptyString :: p :: ps)) with (String sep (join sep (p :: ps))).
    now rewrite IH.
  - destruct (split sep s) as [|p ps] eqn:Es; [now apply split_not_nil in Es|].
    now rewrite join_cons_char, IH.
Qed.

(** No piece contains the separator. *)
Lemma split_pieces sep s : Forall (fun p => occurs sep p = false) (split sep s).
Proof.
  induction s as [|c s IH]; simpl.
  - now repeat constructor.
  - destruct (Ascii.eqb c sep) eqn:E.
    + now constructor.
    + destruct (split sep s) as [|p ps]; [now repeat constructor; simpl; rewrite E|].
      inversion IH; subst. constructor; [|assumption].
      simpl. now rewrite E.
Qed.

Lemma append_cons_char c a b :
  String.append (String c a) b = String c (String.append a b).
Proof. reflexivity. Qed.

(** The pieces are the only way to cut the input at every separator. *)
Lemma join_unique sep (l1 l2 : list bytes) :
  l1 <> [] -> l2 <> [] ->
  Forall (fun p => occurs sep p = false) l1 ->
  Forall (fun p => occurs sep p = false) l2 ->
  join sep l1 = join sep l2 -> l1 = l2.
Proof.
  revert l2. induction l1 as [|p ps IH]; intros l2 H1 H2 F1 F2 E; [congruence|].
  destruct l2 as [|q qs]; [congruence|].
  inversion F1 as [|? ? Fp Fps]; inversion F2 as [|? ? Fq Fqs]; subst.
  clear H1 H2 F1 F2. revert q Fq E. induction p as [|c p IHp]; intros q Fq E.
  - destruct q as [|d q].
    + destruct ps as [|p' ps], qs as [|q' qs]; simpl in E; try discriminate; [reflexivity|].
      injection E as E. f_equal. apply IH; try assumption; discriminate.
    + exfalso. rewrite join_cons_char in E.
      destruct ps as [|p' ps]; simpl in E; [discriminate|].
      injection E as Ec _. subst d. simpl in Fq.
      now rewrite Ascii.eqb_refl in Fq.
  - destruct q as [|d q].
    + exfalso. rewrite join_cons_char in E.
      destruct qs as [|q' qs]; simpl in E; [discriminate|].
      injection E as Ec _. subst c. simpl in Fp.
      now rewrite Ascii.eqb_refl in Fp.
    + rewrite !join_cons_char in E. injection E as Ec E. subst d.
      simpl in Fp, Fq. apply orb_false_iff in Fp as [_ Fp], Fq as [_ Fq].
      specialize (IHp Fp q Fq E).
      now injection IHp as -> ->.
Qed.

Lemma substring_all s : String.substring 0 (String.length s) s = s.
Proof. induction s as [|c s IH]; simpl; [reflexivity|now rewrite IH]. Qed.

(** [split1] cuts where [String.index] finds the first separator. *)
Lemma split1_index (sep : ascii) s :
  split1 sep s =
  match String.index 0 (String sep EmptyString) s with
  | Some i =>
      [String.substring 0 i s;
       String.substring (S i) (String.length s - S i) s]
  | None => [s]
  end.
Proof.
  induction s as [|c s IH]; [reflexivity|].
  cbn [split1 String.index String.prefix].
  destruct (Ascii.ascii_dec sep c) as [->|Hne].
  - rewrite Ascii.eqb_refl. destruct s; simpl; [reflexivity|].
    now rewrite substring_all.
  - destruct (Ascii.eqb c sep) eqn:E; [apply Ascii.eqb_eq in E; congruence|].
    rewrite IH. destruct (String.index 0 (String sep EmptyString) s); reflexivity.
Qed.

Lemma lstrip_spec s :
  exists l, s = String.append l (lstrip s) /\ all_space l /\
            starts_with_space (lstrip s) = false.
Proof.
  induction s as [|c s (l & E & A & H)].
  - exists EmptyString. repeat split. constructor.
  - simpl. destruct (is_space c) eqn:Ec.
    + exists (String c l). repeat split; [rewrite append_cons_char; congruence| |assumption].
      unfold all_space; simpl. now constructor.
    + exists EmptyString. repeat split; [constructor|]. simpl. assumption.
Qed.

Lemma rstrip_spec s :
  exists r, s = String.append (rstrip s) r /\ all_space r /\
            ends_with_space (rstrip s) = false /\
            (starts_with_space s = false ->
             starts_with_space (rstrip s) = false).
Proof.
  induction s as [|c s (r & E & A & H & _)].
  - exists EmptyString. repeat split. constructor.
  - cbn [rstrip]. destruct (rstrip s) as [|d t] eqn:Er.
    + destruct (is_space c) eqn:Ec.
      * exists (String c r).
        split; [change (String c s = String c r); f_equal; exact E|].
        split; [unfold all_space; simpl; now constructor|].
        split; [reflexivity|].
        intros Hs. simpl in Hs. congruence.
      * exists r.
        split; [change (String c s = String c r); f_equal; exact E|].
        split; [exact A|].
        split; [exact Ec|]. intros _. exact Ec.
    + exists r.
      split; [rewrite append_cons_char; f_equal; exact E|].
      split; [exact A|].
      split; [exact H|]. intros Hs. exact Hs.
Qed.

(** [strip] removes a run of whitespace at each end, and what is left has
    no whitespace at either end. *)
Lemma strip_spec s :
  exists l r, s = String.append l (String.append (strip s) r) /\
              all_space l /\ all_space r /\
              starts_with_space (strip s) = false /\
              ends_with_space (strip s) = false.
Proof.
  destruct (lstrip_spec s) as (l & El & Al & Hl).
  destruct (rstrip_spec (lstrip s)) as (r & Er & Ar & Hr & Hs).
  exists l, r. unfold strip. rewrite <- Er.
  split; [exact El|]. split; [exact Al|]. split; [exact Ar|].
  split; [apply Hs; exact Hl|exact Hr].
Qed.

End BytesFacts.

(** ** CAAIssue.parse *)

Section ParseFacts.

Import ParseSpec.

Lemma split1_without sep s : occurs sep s = false -> split1 sep s = [s].
Proof.
  induction s as [|c s IH]; simpl; [reflexivity|].
  intros H. apply orb_false_iff in H as [Hc Hs].
  rewrite Hc, (IH Hs). reflexivity.
Qed.

Lemma split1_first sep n v :
  occurs sep n = false ->
  split1 sep (String.append n (String sep v)) = [n; v].
Proof.
  induction n as [|c n IH]; intros H.
  - simpl. now rewrite Ascii.eqb_refl.
  - simpl in H. apply orb_false_iff in H as [Hc Hn].
    rewrite append_cons_char. simpl. now rewrite Hc, (IH Hn).
Qed.

Lemma property_of_split1 segment :
  property_of segment =
  match split1 "=" segment with
  | [name] => (strip name, None)
  | name :: v :: _ => (strip name, Some (strip v))
  | [] => (strip segment, None)
  end.
Proof.
  unfold property_of. rewrite split1_index.
  destruct (String.index 0 "=" segment); reflexivity.
Qed.

(** A segment without [=] names a property that has no value. *)
Lemma property_of_flag segment :
  occurs "=" segment = false -> property_of segment = (strip segment, None).
Proof. intros H. now rewrite property_of_split1, split1_without. Qed.

(** The cut is at the leftmost [=]; the value is everything behind it. *)
Lemma property_of_assignment n v :
  occurs "=" n = false ->
  property_of (String.append n (String "=" v)) = (strip n, Some (strip v)).
Proof. intros H. now rewrite property_of_split1, split1_first. Qed.

Lemma store_parameter_spec m p :
  store_parameter m p =
  Ok (<[fst (property_of p) := snd (property_of p)]> m).
Proof.
  unfold store_parameter. rewrite property_of_split1.
  destruct (split1 "=" p) as [|name [|v rest]] eqn:E; try reflexivity.
  destruct p as [|c p]; simpl in E; [discriminate|].
  destruct (Ascii.eqb c "="); [discriminate|].
  destruct (split1 "=" p); discriminate.
Qed.

Lemma find_app {A} (f : A -> bool) l1 l2 :
  List.find f (l1 ++ l2) =
  match List.find f l1 with
  | Some x => Some x
  | None => List.find f l2
  end.
Proof.
  induction l1 as [|x l1 IH]; simpl; [reflexivity|].
  destruct (f x); [reflexivity|exact IH].
Qed.

Lemma last_assignment_cons name p props :
  last_assignment name (p :: props) =
  match last_assignment name props with
  | Some v => Some v
  | None => if String.eqb (fst p) name then Some (snd p) else None
  end.
Proof.
  unfold last_assignment. simpl rev. rewrite find_app.
  destruct (List.find _ (rev props)); simpl; [reflexivity|].
  destruct (String.eqb (fst p) name); reflexivity.
Qed.

(** The dictionary after the loop: every name holds what its last
    assignment gave it. *)
Lemma store_parameters_spec ps :
  forall m, exists m',
    store_parameters m ps = Ok m' /\
    forall name,
      m' !! name =
      match last_assignment name (map property_of ps) with
      | Some v => Some v
      | None => m !! name
      end.
Proof.
  induction ps as [|p ps IH]; intros m.
  - exists m. split; reflexivity.
  - destruct (IH (<[fst (property_of p) := snd (property_of p)]> m)) as (m' & E & L).
    exists m'. split.
    + simpl. rewrite store_parameter_spec. exact E.
    + intros name. rewrite L. simpl map. rewrite last_assignment_cons.
      destruct (last_assignment name (map property_of ps)); [reflexivity|].
      destruct (String.eqb (fst (property_of p)) name) eqn:En.
      * apply String.eqb_eq in En. subst name. apply lookup_insert_eq.
      * apply String.eqb_neq in En. now apply lookup_insert_ne.
Qed.

Lemma parse_total raw : exists c, parse raw = Ok c.
Proof.
  unfold parse.
  destruct (split ";" raw) as [|first rest] eqn:Es; [now apply split_not_nil in Es|].
  destruct (store_parameters_spec rest ∅) as (m & Em & _).
  rewrite Em. simpl. eauto.
Qed.

(** C7: [parse] never fails.  The input is cut at every [;] (the pieces
    joined by [;] are the input and no piece contains one); the first piece,
    trimmed, is the issuer; every later piece is a property, cut at its
    first [=] only, name and value trimmed, without value when it has no
    [=]; and each name maps to what its last assignment gave it.  Trimming
    takes a run of whitespace off each end and leaves none there.  The
    empty input gives the empty issuer and no property. *)
Theorem parse_spec (raw : bytes) :
  exists first rest c,
    join ";" (first :: rest) = raw /\
    Forall (fun p => occurs ";" p = false) (first :: rest) /\
    parse raw = Ok c /\
    caa_issuer c = strip first /\
    (forall name,
       parameters c !! name = last_assignment name (map property_of rest)) /\
    (forall segment,
       occurs "=" segment = false ->
       property_of segment = (strip segment, None)) /\
    (forall n v,
       occurs "=" n = false ->
       property_of (String.append n (String "=" v)) = (strip n, Some (strip v))) /\
    (forall s,
       exists l r,
         s = String.append l (String.append (strip s) r) /\
         all_space l /\ all_space r /\
         starts_with_space (strip s) = false /\
         ends_with_space (strip s) = false) /\
    parse EmptyString = Ok (mkCAAIssue EmptyString ∅).
Proof.
  destruct (split ";" raw) as [|first rest] eqn:Es; [now apply split_not_nil in Es|].
  destruct (store_parameters_spec rest ∅) as (m & Em & Lm).
  exists first, rest, (mkCAAIssue (strip first) m).
  split; [rewrite <- Es; apply join_split|].
  split; [rewrite <- Es; apply split_pieces|].
  split; [unfold parse; rewrite Es; simpl; now rewrite Em|].
  split; [reflexivity|].
  split.
  - intros name. simpl. rewrite Lm, lookup_empty.
    now destruct (last_assignment name (map property_of rest)).
  - split; [exact property_of_flag|].
    split; [exact property_of_assignment|].
    split; [exact strip_spec|reflexivity].
Qed.

End ParseFacts.

(** ** issuer_to_directory *)

Section DirectoryFacts.

Lemma forallb_is_ascii s :
  forallb is_ascii (list_ascii_of_string s) = true <->
  Forall (fun c => (code c < 128)%N) (list_ascii_of_string s).
Proof.
  rewrite forallb_forall, Forall_forall. unfold is_ascii.
  split; intros H c Hc.
  - apply N.ltb_lt, H. now apply list_elem_of_In.
  - apply N.ltb_lt, H. now apply list_elem_of_In.
Qed.

Lemma lower_length s : String.length (lower s) = String.length s.
Proof. induction s as [|c s IH]; simpl; [reflexivity|now rewrite IH]. Qed.

Lemma lower_get s i : String.get i (lower s) = lower_char <$> String.get i s.
Proof.
  revert i. induction s as [|c s IH]; intros i; [reflexivity|].
  destruct i as [|i]; simpl; [reflexivity|apply IH].
Qed.

(** C8: an identifier made of ASCII bytes maps to [https://], the
    identifier with A-Z turned into a-z and every other character kept,
    and [/.well-known/acme]; any other identifier is refused with the
    invalid-issuer error.  There is no third outcome. *)
Theorem issuer_to_directory_spec (issuer : bytes) :
  (Forall (fun c => (code c < 128)%N) (list_ascii_of_string issuer) /\
   issuer_to_directory issuer =
     Ok (String.append "https://" (String.append (lower issuer) "/.well-known/acme")) /\
   String.length (lower issuer) = String.length issuer /\
   forall i c, String.get i issuer = Some c ->
     String.get i (lower issuer) =
       Some (if ((65 <=? code c) && (code c <=? 90))%N
             then ascii_of_N (code c + 32) else c))
  \/
  (~ Forall (fun c => (code c < 128)%N) (list_ascii_of_string issuer) /\
   issuer_to_directory issuer = Raise InvalidIssuerEncodingError).
Proof.
  unfold issuer_to_directory, decode_ascii.
  destruct (forallb is_ascii (list_ascii_of_string issuer)) eqn:E.
  - left. split; [now apply forallb_is_ascii|].
    split; [reflexivity|]. split; [apply lower_length|].
    intros i c Hc. now rewrite lower_get, Hc.
  - right. split; [|reflexivity].
    intros H. apply forallb_is_ascii in H. congruence.
Qed.

End DirectoryFacts.

(** ** Sets of issuers *)

Section SetFacts.

Import PySet.

Lemma issuer_eq_true a b : issuer_eq a b = true <-> issuer a = issuer b.
Proof. apply String.eqb_eq. Qed.

Lemma issuer_eq_refl a : issuer_eq a a = true.
Proof. apply String.eqb_refl. Qed.

Lemma contains_spec s x : contains s x = true <-> has_id (issuer x) s.
Proof.
  unfold contains, has_id. rewrite existsb_exists.
  split; intros (y & Hy & E); exists y; split; trivial.
  - apply issuer_eq_true in E. congruence.
  - apply issuer_eq_true. congruence.
Qed.

Lemma contains_same_id s x y :
  issuer x = issuer y -> contains s x = contains s y.
Proof.
  intros E. unfold contains, issuer_eq. now rewrite E.
Qed.

Lemma contains_app s t x : contains (s ++ t) x = contains s x || contains t x.
Proof. apply existsb_app. Qed.

Lemma fold_add_spec l :
  forall acc x,
    In x (fold_left add l acc) <->
    In x acc \/ (contains acc x = false /\ List.find (issuer_eq x) l = Some x).
Proof.
  induction l as [|o l IH]; intros acc x; simpl.
  - split; [now left|]. intros [H|[_ H]]; [assumption|discriminate].
  - rewrite IH. unfold add.
    destruct (issuer_eq x o) eqn:Exo.
    + assert (Eid : issuer x = issuer o) by now apply issuer_eq_true.
      rewrite (contains_same_id acc x o Eid).
      destruct (contains acc o) eqn:Eo.
      * rewrite (contains_same_id acc x o Eid), Eo. intuition discriminate.
      * rewrite in_app_iff, contains_app. simpl.
        rewrite Exo, orb_true_r. simpl.
        split.
        -- intros [[H|[H|[]]]|[H _]]; [now left| |discriminate].
           right. split; [reflexivity|now f_equal].
        -- intros [H|[_ H]]; [now left; left|].
           left; right; left. congruence.
    + assert (Hne : o <> x).
      { intros ->. rewrite issuer_eq_refl in Exo. discriminate. }
      destruct (contains acc o) eqn:Eo; [reflexivity|].
      rewrite in_app_iff, contains_app. simpl.
      rewrite Exo, !orb_false_r. simpl. intuition.
Qed.

(** [set(l)] keeps, for every identifier, its first issuer in [l]. *)
Lemma of_list_spec l x :
  In x (of_list l) <-> List.find (issuer_eq x) l = Some x.
Proof.
  unfold of_list. rewrite fold_add_spec. simpl. intuition.
Qed.

Lemma intersection_update_of_list s l :
  intersection_update s l = of_list (List.filter (contains s) l).
Proof.
  unfold intersection_update, of_list. generalize (@nil Issuer).
  induction l as [|o l IH]; intros acc; simpl; [reflexivity|].
  destruct (contains s o); simpl; apply IH.
Qed.

Lemma find_filter_contains s l x :
  List.find (issuer_eq x) (List.filter (contains s) l) =
  if contains s x then List.find (issuer_eq x) l else None.
Proof.
  induction l as [|o l IH]; simpl; [now destruct (contains s x)|].
  destruct (issuer_eq x o) eqn:Exo.
  - apply issuer_eq_true in Exo.
    rewrite (contains_same_id s x o Exo) in *.
    destruct (contains s o); simpl.
    + apply issuer_eq_true in Exo. now rewrite Exo.
    + exact IH.
  - destruct (contains s o); simpl; [rewrite Exo|]; exact IH.
Qed.

(** After [s.intersection_update(l)] the set holds, for every identifier
    that [s] had, the first issuer of [l] with that identifier. *)
Lemma intersection_update_spec s l x :
  In x (intersection_update s l) <->
  contains s x = true /\ List.find (issuer_eq x) l = Some x.
Proof.
  rewrite intersection_update_of_list, of_list_spec, find_filter_contains.
  destruct (contains s x); intuition discriminate.
Qed.

Lemma find_first_with_id id l :
  has_id id l ->
  exists y, issuer y = id /\ List.find (issuer_eq y) l = Some y.
Proof.
  intros (x & Hx & E). induction l as [|o l IH]; [contradiction|].
  destruct (String.eqb id (issuer o)) eqn:Eo.
  - apply String.eqb_eq in Eo. exists o. split; [congruence|].
    simpl. now rewrite issuer_eq_refl.
  - destruct Hx as [->|Hx]; [rewrite E, String.eqb_refl in Eo; discriminate|].
    destruct (IH Hx) as (y & Ey & Fy). exists y. split; [assumption|].
    simpl. unfold issuer_eq at 1. now rewrite Ey, Eo.
Qed.

Lemma first_with_id_find id p l :
  first_with_id id l = Some (mkIssuer id p) <->
  List.find (issuer_eq (mkIssuer id p)) l = Some (mkIssuer id p).
Proof. reflexivity. Qed.

Lemma has_id_of_list id l : has_id id (of_list l) <-> has_id id l.
Proof.
  split.
  - intros (x & Hx & E). apply of_list_spec, find_some in Hx as [Hx _].
    now exists x.
  - intros H. destruct (find_first_with_id id l H) as (y & Ey & Fy).
    exists y. split; [now apply of_list_spec|assumption].
Qed.

Lemma has_id_intersection_update id s l :
  has_id id (intersection_update s l) <-> has_id id s /\ has_id id l.
Proof.
  split.
  - intros (x & Hx & E). apply intersection_update_spec in Hx as [Hs Hf].
    apply contains_spec in Hs. apply find_some in Hf as [Hl _].
    rewrite E in Hs. split; [assumption|now exists x].
  - intros [Hs Hl]. destruct (find_first_with_id id l Hl) as (y & Ey & Fy).
    exists y. split; [|assumption].
    apply intersection_update_spec. split; [|assumption].
    apply contains_spec. now rewrite Ey.
Qed.

(** The fold of the intersection loop, from a set already begun. *)
Lemma intersection_from_some ls :
  forall s,
    fold_left
      (fun acc issuers =>
         match acc with
         | None => Some (of_list issuers)
         | Some s => Some (intersection_update s issuers)
         end) ls (Some s) =
    Some (fold_left intersection_update ls s).
Proof.
  induction ls as [|l ls IH]; intros s; simpl; [reflexivity|apply IH].
Qed.

Lemma issuers_intersection_cons l ls :
  issuers_intersection (l :: ls) =
  Some (fold_left intersection_update ls (of_list l)).
Proof. unfold issuers_intersection. simpl. apply intersection_from_some. Qed.

Lemma has_id_fold_intersection id ls :
  forall s,
    has_id id (fold_left intersection_update ls s) <->
    has_id id s /\ Forall (has_id id) ls.
Proof.
  induction ls as [|l ls IH]; intros s; simpl.
  - split; [intros H; split; [assumption|constructor]|now intros [H _]].
  - rewrite IH, has_id_intersection_update, Forall_cons_iff. tauto.
Qed.

(** The identifiers of the intersection are those that every domain has. *)
Lemma issuers_intersection_common per_domain s id :
  issuers_intersection per_domain = Some s ->
  (has_id id s <-> Forall (has_id id) per_domain).
Proof.
  destruct per_domain as [|l ls]; [discriminate|].
  rewrite issuers_intersection_cons. intros [= <-].
  rewrite has_id_fold_intersection, has_id_of_list, Forall_cons_iff. tauto.
Qed.

Lemma contains_false_not_in s x :
  contains s x = false -> ~ In (issuer x) (map issuer s).
Proof.
  intros H Hin. apply in_map_iff in Hin as (y & Ey & Hy).
  assert (contains s x = true); [|congruence].
  apply contains_spec. now exists y.
Qed.

Lemma fold_add_nodup l :
  forall acc, NoDup (map issuer acc) -> NoDup (map issuer (fold_left add l acc)).
Proof.
  induction l as [|o l IH]; intros acc Hacc; simpl; [assumption|].
  apply IH. unfold add. destruct (contains acc o) eqn:Eo; [assumption|].
  rewrite map_app. simpl. apply NoDup_app. split; [assumption|].
  split.
  - intros id Hid Ho. apply list_elem_of_In in Hid, Ho.
    destruct Ho as [<-|[]]. now apply (contains_false_not_in acc o).
  - apply NoDup_singleton.
Qed.

(** No two members of a set have the same identifier. *)
Lemma of_list_nodup l : NoDup (map issuer (of_list l)).
Proof. apply fold_add_nodup. constructor. Qed.

Lemma issuers_intersection_nodup per_domain s :
  issuers_intersection per_domain = Some s -> NoDup (map issuer s).
Proof.
  destruct per_domain as [|l ls]; [discriminate|].
  rewrite issuers_intersection_cons. intros [= <-].
  generalize (of_list_nodup l). generalize (of_list l).
  induction ls as [|l' ls IH]; intros t Ht; simpl; [assumption|].
  apply IH. rewrite intersection_update_of_list. apply of_list_nodup.
Qed.

(** C1 (amended): a member of the running set survives
    [intersection_update] with a later domain's list exactly when the list
    has an issuer with its identifier; what is then in the set is the
    first issuer of the later list with that identifier, so the priority is
    the later domain's.  For two domains whose first issuers named [id]
    have priorities [p1] and [p2], the intersection holds [id] with [p2]
    and in no other way. *)
Theorem intersection_takes_later_priority (s : PySet.t) (later : list Issuer) :
  (forall y, In y s ->
     (has_id (issuer y) (intersection_update s later) <-> has_id (issuer y) later)) /\
  (forall x, In x (intersection_update s later) ->
     has_id (issuer x) s /\ first_with_id (issuer x) later = Some x) /\
  (forall first second id p1 p2,
     first_with_id id first = Some (mkIssuer id p1) ->
     first_with_id id second = Some (mkIssuer id p2) ->
     exists s',
       issuers_intersection [first; second] = Some s' /\
       forall x, (In x s' /\ issuer x = id) <-> x = mkIssuer id p2) /\
  (forall first others last s',
     issuers_intersection (first :: others ++ [last]) = Some s' ->
     forall x, In x s' -> first_with_id (issuer x) last = Some x).
Proof.
  split; [|split; [|split]].
  - intros y Hy. rewrite has_id_intersection_update.
    assert (has_id (issuer y) s) by now exists y.
    tauto.
  - intros x Hx. apply intersection_update_spec in Hx as [Hs Hf].
    split; [now apply contains_spec|exact Hf].
  - intros first second id p1 p2 H1 H2.
    exists (intersection_update (of_list first) second).
    split; [reflexivity|].
    intros x. rewrite intersection_update_spec. split.
    + intros [[_ Hf] E]. destruct x as [xi xp]. simpl in E. subst xi.
      change (first_with_id id second = Some (mkIssuer id xp)) in Hf.
      congruence.
    + intros ->. split; [split|reflexivity].
      * apply contains_spec, has_id_of_list. simpl.
        apply find_some in H1 as [H1 _]. now exists (mkIssuer id p1).
      * exact H2.
  - intros first others last s' E x Hx.
    rewrite issuers_intersection_cons, fold_left_app in E. simpl in E.
    injection E as <-. now apply intersection_update_spec in Hx as [_ Hx].
Qed.

End SetFacts.

(** ** Sorting by priority *)

Section SortFacts.

Lemma insert_by_priority_perm x l :
  Permutation (insert_by_priority x l) (x :: l).
Proof.
  induction l as [|y l IH]; simpl; [reflexivity|].
  destruct (priority x <=? priority y); [reflexivity|].
  rewrite IH. apply perm_swap.
Qed.

Lemma sorted_by_priority_perm l : Permutation (sorted_by_priority l) l.
Proof.
  induction l as [|x l IH]; simpl; [reflexivity|].
  rewrite insert_by_priority_perm. now constructor.
Qed.

Lemma insert_by_priority_sorted x l :
  StronglySorted priority_le l ->
  StronglySorted priority_le (insert_by_priority x l).
Proof.
  induction 1 as [|y l Hs IH Hy]; simpl.
  - repeat constructor.
  - destruct (priority x <=? priority y) eqn:E.
    + apply Z.leb_le in E. constructor; [now constructor|].
      constructor; [exact E|].
      eapply List.Forall_impl; [|exact Hy]. unfold priority_le. intros; lia.
    + apply Z.leb_gt in E. constructor; [exact IH|].
      rewrite insert_by_priority_perm. constructor; [|exact Hy].
      unfold priority_le. lia.
Qed.

Lemma sorted_by_priority_sorted l :
  StronglySorted priority_le (sorted_by_priority l).
Proof.
  induction l as [|x l IH]; simpl; [constructor|].
  now apply insert_by_priority_sorted.
Qed.

Lemma with_priority_insert p x l :
  with_priority p (insert_by_priority x l) = with_priority p (x :: l).
Proof.
  induction l as [|y l IH]; [reflexivity|].
  cbn [insert_by_priority].
  destruct (priority x <=? priority y) eqn:E; [reflexivity|].
  apply Z.leb_gt in E.
  change (with_priority p (y :: insert_by_priority x l))
    with (if priority y =? p then y :: with_priority p (insert_by_priority x l)
          else with_priority p (insert_by_priority x l)).
  rewrite IH. unfold with_priority. simpl.
  destruct (priority y =? p) eqn:Ey, (priority x =? p) eqn:Ex; try reflexivity.
  apply Z.eqb_eq in Ey, Ex. lia.
Qed.

(** The sort is stable: issuers of one priority keep their order. *)
Lemma sorted_by_priority_stable p l :
  with_priority p (sorted_by_priority l) = with_priority p l.
Proof.
  induction l as [|x l IH]; [reflexivity|].
  simpl sorted_by_priority. rewrite with_priority_insert.
  unfold with_priority in *. simpl. now rewrite IH.
Qed.

Lemma with_priority_In p x l :
  In x (with_priority p l) <-> In x l /\ priority x = p.
Proof.
  unfold with_priority. rewrite filter_In, Z.eqb_eq. reflexivity.
Qed.

(** Two ascending lists with the same issuers of every priority, in the
    same order, are equal: a stable sort has only one possible result. *)
Lemma stable_sort_unique l1 :
  forall l2,
    StronglySorted priority_le l1 ->
    StronglySorted priority_le l2 ->
    (forall p, with_priority p l1 = with_priority p l2) ->
    l1 = l2.
Proof.
  induction l1 as [|a t1 IH]; intros l2 S1 S2 H.
  - destruct l2 as [|b t2]; [reflexivity|].
    specialize (H (priority b)). unfold with_priority in H. simpl in H.
    rewrite Z.eqb_refl in H. discriminate.
  - destruct l2 as [|b t2].
    + specialize (H (priority a)). unfold with_priority in H. simpl in H.
      rewrite Z.eqb_refl in H. discriminate.
    + inversion S1 as [|? ? S1' F1]; inversion S2 as [|? ? S2' F2]; subst.
      assert (Epr : priority a = priority b).
      { assert (Ha : In a (b :: t2)).
        { apply (with_priority_In (priority a)). rewrite <- H.
          apply with_priority_In. split; [now left|reflexivity]. }
        assert (Hb : In b (a :: t1)).
        { apply (with_priority_In (priority b)). rewrite H.
          apply with_priority_In. split; [now left|reflexivity]. }
        rewrite Forall_forall in F1, F2. unfold priority_le in F1, F2.
        destruct Ha as [->|Ha]; [reflexivity|].
        destruct Hb as [->|Hb]; [reflexivity|].
        apply list_elem_of_In, F2 in Ha. apply list_elem_of_In, F1 in Hb. lia. }
      assert (Eab : a = b).
      { specialize (H (priority a)). unfold with_priority in H. simpl in H.
        rewrite <- Epr, Z.eqb_refl in H. congruence. }
      subst b. f_equal. apply IH; try assumption.
      intros p. specialize (H p). unfold with_priority in *. simpl in H.
      destruct (priority a =? p); congruence.
Qed.

End SortFacts.

(** ** Issuer selection *)

Section SelectFacts.

Lemma parse_parsed v : parse v = Ok (parsed v).
Proof. unfold parsed. destruct (parse_total v) as (c & E). now rewrite E. Qed.

Lemma parsed_with_tag_ok t rr :
  parsed_with_tag t rr = Ok (records_with_tag t rr).
Proof.
  unfold parsed_with_tag, records_with_tag.
  induction (List.filter (fun r => String.eqb (tag r) t) rr) as [|r l IH]; simpl.
  - reflexivity.
  - rewrite parse_parsed, IH. reflexivity.
Qed.

Lemma select_issuers_chosen wild rr :
  select_issuers wild rr =
  match chosen_records wild rr with
  | [] => Raise NoCAARecordsError
  | l => build_issuers l []
  end.
Proof.
  unfold select_issuers, chosen_records, choose_relevant_set.
  rewrite !parsed_with_tag_ok. simpl.
  destruct wild, (records_with_tag "issuewild" rr), (records_with_tag "issue" rr);
    reflexivity.
Qed.

Lemma discovery_excluded_spec c : discovery_excluded c = true <-> opted_out c.
Proof.
  unfold discovery_excluded, get_property, opted_out.
  destruct (parameters c !! "discovery"%string) as [[v|]|] eqn:E.
  - destruct (String.eqb v "true") eqn:Ev; simpl.
    + apply String.eqb_eq in Ev. subst v. split; [discriminate|].
      intros (w & [= <-] & Hw). congruence.
    + apply String.eqb_neq in Ev. split; [|reflexivity].
      intros _. exists (Some v). split; [reflexivity|congruence].
  - split; [|reflexivity]. intros _. exists None. split; [reflexivity|discriminate].
  - simpl. split; [discriminate|]. intros (w & Hw & _). discriminate.
Qed.

Lemma surviving_In c l : In c (surviving l) <-> In c l /\ ~ opted_out c.
Proof.
  unfold surviving. rewrite filter_In, <- discovery_excluded_spec.
  destruct (discovery_excluded c); simpl; intuition congruence.
Qed.

Lemma resolve_priority_raises c :
  resolve_priority c = Raise InvalidPriorityError <-> bad_priority c.
Proof.
  unfold resolve_priority, get_property, bad_priority.
  destruct (parameters c !! "priority"%string) as [[text|]|] eqn:E.
  - destruct (Bytes.int text) as [p|] eqn:Ei.
    + destruct (p <? 1) eqn:Ep.
      * apply Z.ltb_lt in Ep. split; [|reflexivity].
        intros _. exists text. split; [reflexivity|]. right. now exists p.
      * apply Z.ltb_ge in Ep. split; [discriminate|].
        intros (t & [= <-] & [H|(q & H & Hq)]); [congruence|].
        assert (q = p) by congruence. lia.
    + split; [|reflexivity]. intros _. exists text. split; [reflexivity|now left].
  - split; [discriminate|]. intros (t & H & _). discriminate.
  - split; [discriminate|]. intros (t & H & _). discriminate.
Qed.

Lemma resolve_priority_error c e :
  resolve_priority c = Raise e -> e = InvalidPriorityError.
Proof.
  unfold resolve_priority.
  destruct (get_property c "priority" None) as [text|]; [|discriminate].
  destruct (Bytes.int text) as [p|]; [|congruence].
  destruct (p <? 1); congruence.
Qed.

Lemma issuer_of_record_ok c i :
  issuer_of_record c = Ok i <->
  issuer i = caa_issuer c /\ resolve_priority c = Ok (priority i).
Proof.
  unfold issuer_of_record. destruct (resolve_priority c) as [p|e]; simpl.
  - split.
    + intros [= <-]. split; reflexivity.
    + destruct i as [n q]. simpl. intros [-> [= ->]]. reflexivity.
  - split; [discriminate|]. intros [_ H]. discriminate.
Qed.

Lemma issuer_of_record_raises c e :
  issuer_of_record c = Raise e -> e = InvalidPriorityError /\ bad_priority c.
Proof.
  unfold issuer_of_record. destruct (resolve_priority c) as [p|e'] eqn:E; simpl.
  - discriminate.
  - intros [= <-]. pose proof (resolve_priority_error c e' E) as ->.
    split; [reflexivity|now apply resolve_priority_raises].
Qed.

Lemma build_issuers_spec l :
  forall acc,
    build_issuers l acc =
    match map_result issuer_of_record (surviving l) with
    | Ok issuers => Ok (acc ++ issuers)
    | Raise e => Raise e
    end.
Proof.
  induction l as [|c l IH]; intros acc; simpl.
  - now rewrite app_nil_r.
  - destruct (discovery_excluded c); simpl; [apply IH|].
    unfold issuer_of_record at 1.
    destruct (resolve_priority c) as [p|e]; simpl; [|reflexivity].
    rewrite IH.
    destruct (map_result issuer_of_record (surviving l)); simpl; [|reflexivity].
    now rewrite <- app_assoc.
Qed.

Lemma map_result_ok {A B} (f : A -> result B) l ys :
  map_result f l = Ok ys <-> Forall2 (fun x y => f x = Ok y) l ys.
Proof.
  revert ys. induction l as [|x l IH]; intros ys; simpl.
  - split; [intros [= <-]; constructor|]. intros H. now inversion H.
  - destruct (f x) as [y|e] eqn:Ex; simpl.
    + destruct (map_result f l) as [zs|e] eqn:El; simpl.
      * split.
        -- intros [= <-]. constructor; [exact Ex|now apply IH].
        -- intros H. inversion H as [|? y' ? zs' Hy Hz]; subst.
           apply IH in Hz. congruence.
      * split; [discriminate|].
        intros H. inversion H as [|? y' ? zs' Hy Hz]; subst.
        apply IH in Hz. discriminate.
    + split; [discriminate|].
      intros H. inversion H; subst. congruence.
Qed.

Lemma map_result_raises {A B} (f : A -> result B) l e :
  map_result f l = Raise e -> exists x, In x l /\ f x = Raise e.
Proof.
  induction l as [|x l IH]; simpl; [discriminate|].
  destruct (f x) as [y|e'] eqn:Ex; simpl.
  - destruct (map_result f l) as [zs|e'']; simpl; [discriminate|].
    intros [= ->]. destruct (IH eq_refl) as (z & Hz & Ez). eauto.
  - intros [= ->]. eauto.
Qed.

(** C5 (amended): priority resolution fails, and then with the
    invalid-priority error, exactly when the [priority] property has a
    value that is not the literal of an integer at least 1.  Without the
    property the priority is 0, and so it is when the property is there
    without a value.  A value that reads as [p >= 1] gives [p].  Explicit
    [0], a negative number and a word are refused. *)
Theorem resolve_priority_spec (c : CAAIssue) :
  (resolve_priority c = Raise InvalidPriorityError <-> bad_priority c) /\
  (forall e, resolve_priority c = Raise e -> e = InvalidPriorityError) /\
  (parameters c !! "priority"%string = None -> resolve_priority c = Ok 0) /\
  (parameters c !! "priority"%string = Some None -> resolve_priority c = Ok 0) /\
  (forall text p,
     parameters c !! "priority"%string = Some (Some text) ->
     Bytes.int text = Some p -> 1 <= p -> resolve_priority c = Ok p) /\
  resolve_priority (parsed "ca.example") = Ok 0 /\
  resolve_priority (parsed "ca.example; priority=3") = Ok 3 /\
  resolve_priority (parsed "ca.example; priority=0") = Raise InvalidPriorityError /\
  resolve_priority (parsed "ca.example; priority=-2") = Raise InvalidPriorityError /\
  resolve_priority (parsed "ca.example; priority=high") = Raise InvalidPriorityError.
Proof.
  split; [apply resolve_priority_raises|].
  split; [apply resolve_priority_error|].
  unfold resolve_priority, get_property.
  split; [now intros ->|]. split; [now intros ->|].
  split.
  - intros text p -> -> Hp. destruct (p <? 1) eqn:E; [|reflexivity].
    apply Z.ltb_lt in E. lia.
  - repeat split; vm_compute; reflexivity.
Qed.

(** C6: the records are parted by tag; a wildcard domain takes the
    [issuewild] records when there are any and the [issue] records
    otherwise, any other domain takes the [issue] records; an empty choice
    is the no-records error.  Of the chosen records, those whose
    [discovery] property is present and not [true] are dropped, and each
    remaining record gives one issuer, in the order of the records, with
    the record's identifier and its resolved priority; the only other
    outcome is the invalid-priority error of a remaining record. *)
Theorem select_issuers_spec (wild : bool) (rr : list Rdata) :
  Forall2 (fun r c => parse (value r) = Ok c)
    (List.filter (fun r => String.eqb (tag r) "issuewild") rr)
    (records_with_tag "issuewild" rr) /\
  Forall2 (fun r c => parse (value r) = Ok c)
    (List.filter (fun r => String.eqb (tag r) "issue") rr)
    (records_with_tag "issue" rr) /\
  chosen_records wild rr =
    (if wild then
       match records_with_tag "issuewild" rr with
       | [] => records_with_tag "issue" rr
       | l => l
       end
     else records_with_tag "issue" rr) /\
  (forall l c, In c (surviving l) <-> In c l /\ ~ opted_out c) /\
  ((chosen_records wild rr = [] /\
    select_issuers wild rr = Raise NoCAARecordsError)
   \/
   (chosen_records wild rr <> [] /\
    ((exists issuers,
        select_issuers wild rr = Ok issuers /\
        Forall2
          (fun c i => issuer i = caa_issuer c /\ resolve_priority c = Ok (priority i))
          (surviving (chosen_records wild rr)) issuers)
     \/
     (select_issuers wild rr = Raise InvalidPriorityError /\
      exists c, In c (surviving (chosen_records wild rr)) /\ bad_priority c)))).
Proof.
  split; [|split; [|split; [reflexivity|split; [intros l c; apply surviving_In|]]]].
  - unfold records_with_tag. induction (List.filter _ rr); simpl; constructor;
      [apply parse_parsed|assumption].
  - unfold records_with_tag. induction (List.filter _ rr); simpl; constructor;
      [apply parse_parsed|assumption].
  - rewrite select_issuers_chosen.
    destruct (chosen_records wild rr) as [|c l] eqn:Ec; [now left|].
    right. split; [discriminate|].
    rewrite build_issuers_spec.
    destruct (map_result issuer_of_record (surviving (c :: l))) as [out|e] eqn:Em.
    + left. exists out. split; [reflexivity|].
      apply map_result_ok in Em.
      eapply Forall2_impl; [exact Em|].
      intros x y H. now apply issuer_of_record_ok.
    + right. apply map_result_raises in Em as (x & Hx & Ex).
      apply issuer_of_record_raises in Ex as [-> Hb].
      split; [reflexivity|]. now exists x.
Qed.

End SelectFacts.

(** ** More on the parser *)

Section ParseMore.

Import ParseSpec.

Lemma occurs_app c a b :
  occurs c (String.append a b) = occurs c a || occurs c b.
Proof.
  induction a as [|d a IH]; [reflexivity|].
  rewrite append_cons_char. simpl. now rewrite IH, orb_assoc.
Qed.

Lemma occurs_strip c s : occurs c s = false -> occurs c (strip s) = false.
Proof.
  intros H. destruct (strip_spec s) as (l & r & E & _).
  rewrite E, !occurs_app in H.
  apply orb_false_iff in H as [_ H]. now apply orb_false_iff in H as [H _].
Qed.

Lemma strip_trimmed s : trimmed (strip s).
Proof. destruct (strip_spec s) as (l & r & _ & _ & _ & H1 & H2). now split. Qed.

Lemma split1_cases sep s :
  (occurs sep s = false /\ split1 sep s = [s]) \/
  (exists a b, occurs sep a = false /\
               s = String.append a (String sep b) /\ split1 sep s = [a; b]).
Proof.
  induction s as [|c s IH]; [now left|].
  simpl. destruct (Ascii.eqb c sep) eqn:E.
  - apply Ascii.eqb_eq in E. subst c. right. exists EmptyString, s. auto.
  - destruct IH as [[Ho Es]|(a & b & Ho & Es & E1)].
    + left. now rewrite Ho, Es.
    + right. exists (String c a), b. simpl. rewrite E, Ho, E1.
      repeat split. rewrite append_cons_char. now f_equal.
Qed.

(** Name and value of a segment that has no [;]. *)
Lemma property_of_shape segment :
  occurs ";" segment = false ->
  occurs ";" (fst (property_of segment)) = false /\
  occurs "=" (fst (property_of segment)) = false /\
  trimmed (fst (property_of segment)) /\
  forall t, snd (property_of segment) = Some t ->
            occurs ";" t = false /\ trimmed t.
Proof.
  intros Hs. rewrite property_of_split1.
  destruct (split1_cases "=" segment) as [[Ho ->]|(a & b & Ho & Es & ->)]; simpl.
  - split; [now apply occurs_strip|]. split; [now apply occurs_strip|].
    split; [apply strip_trimmed|]. discriminate.
  - rewrite Es, occurs_app in Hs. simpl in Hs.
    apply orb_false_iff in Hs as [Ha Hb].
    split; [now apply occurs_strip|]. split; [now apply occurs_strip|].
    split; [apply strip_trimmed|].
    intros t [= <-]. split; [now apply occurs_strip|apply strip_trimmed].
Qed.

Lemma last_assignment_In name v props :
  last_assignment name props = Some v -> In (name, v) props.
Proof.
  unfold last_assignment.
  destruct (List.find _ (rev props)) as [[n w]|] eqn:E; [|discriminate].
  simpl. intros [= <-]. apply find_some in E as [Hin Hn].
  apply String.eqb_eq in Hn. simpl in Hn. subst n.
  now apply in_rev.
Qed.

Lemma parse_parameters raw :
  exists first rest c,
    split ";" raw = first :: rest /\
    parse raw = Ok c /\
    caa_issuer c = strip first /\
    forall name,
      parameters c !! name = last_assignment name (map property_of rest).
Proof.
  destruct (split ";" raw) as [|first rest] eqn:Es; [now apply split_not_nil in Es|].
  destruct (store_parameters_spec rest ∅) as (m & Em & Lm).
  exists first, rest, (mkCAAIssue (strip first) m).
  split; [reflexivity|].
  split; [unfold parse; rewrite Es; simpl; now rewrite Em|].
  split; [reflexivity|].
  intros name. simpl. rewrite Lm, lookup_empty.
  now destruct (last_assignment name (map property_of rest)).
Qed.

(** X1: reading a property of a parsed value.  [get_property] gives what
    the last segment named [tag] assigned, which is no value at all when
    that segment has no [=], whatever the default; the default comes back
    only when no segment has that name. *)
Theorem get_property_of_parse (raw tag : bytes) (default : option bytes) :
  exists first rest c,
    join ";" (first :: rest) = raw /\
    Forall (fun p => occurs ";" p = false) (first :: rest) /\
    parse raw = Ok c /\
    get_property c tag default =
      match last_assignment tag (map property_of rest) with
      | Some v => v
      | None => default
      end /\
    ((forall segment, In segment rest -> fst (property_of segment) <> tag) ->
     get_property c tag default = default).
Proof.
  destruct (parse_parameters raw) as (first & rest & c & Es & Ep & _ & L).
  exists first, rest, c.
  split; [rewrite <- Es; apply join_split|].
  split; [rewrite <- Es; apply split_pieces|].
  split; [exact Ep|].
  unfold get_property. rewrite L.
  split; [reflexivity|].
  intros Hno.
  destruct (last_assignment tag (map property_of rest)) as [v|] eqn:E; [|reflexivity].
  exfalso. apply last_assignment_In, in_map_iff in E as (seg & Eseg & Hin).
  apply (Hno seg Hin). now rewrite Eseg.
Qed.

(** X2: what a parsed value looks like.  The issuer, every property name
    and every property value are trimmed and contain no [;]; a property
    name contains no [=]. *)
Theorem parse_output_shape (raw : bytes) (c : CAAIssue) (Hparse : parse raw = Ok c) :
  (occurs ";" (caa_issuer c) = false /\ trimmed (caa_issuer c)) /\
  forall name v,
    parameters c !! name = Some v ->
    occurs ";" name = false /\ occurs "=" name = false /\ trimmed name /\
    forall t, v = Some t -> occurs ";" t = false /\ trimmed t.
Proof.
  destruct (parse_parameters raw) as (first & rest & c' & Es & Ep & Ei & L).
  assert (c' = c) by congruence. subst c'.
  pose proof (split_pieces ";" raw) as Hp. rewrite Es in Hp.
  inversion Hp as [|? ? Hfirst Hrest]; subst.
  split.
  - rewrite Ei. split; [now apply occurs_strip|apply strip_trimmed].
  - intros name v Hv. rewrite L in Hv.
    apply last_assignment_In, in_map_iff in Hv as (seg & Eseg & Hin).
    rewrite Forall_forall in Hrest.
    apply list_elem_of_In, Hrest in Hin.
    destruct (property_of_shape seg Hin) as (H1 & H2 & H3 & H4).
    rewrite Eseg in H1, H2, H3, H4. simpl in *. auto.
Qed.

End ParseMore.

(** ** More on the intersection *)

Section SetMore.

Import PySet.

Lemma fold_add_sublist l :
  forall acc, exists k, fold_left add l acc = acc ++ k /\ sublist k l.
Proof.
  induction l as [|o l IH]; intros acc; simpl.
  - exists []. split; [now rewrite app_nil_r|constructor].
  - unfold add at 2. destruct (contains acc o).
    + destruct (IH acc) as (k & E & Hk). exists k.
      split; [exact E|now constructor].
    + destruct (IH (acc ++ [o])) as (k & E & Hk). exists (o :: k).
      split; [now rewrite E, <- app_assoc|now constructor].
Qed.

Lemma contains_of_list l x : contains (of_list l) x = contains l x.
Proof.
  apply Bool.eq_iff_eq_true. rewrite !contains_spec. apply has_id_of_list.
Qed.

Lemma contains_intersection_update s l x :
  contains (intersection_update s l) x = contains s x && contains l x.
Proof.
  apply Bool.eq_iff_eq_true.
  rewrite andb_true_iff, !contains_spec. apply has_id_intersection_update.
Qed.

Lemma contains_In l x : In x l -> contains l x = true.
Proof. intros H. apply contains_spec. now exists x. Qed.

Lemma intersection_update_ext s s' l :
  (forall x, In x l -> contains s x = contains s' x) ->
  intersection_update s l = intersection_update s' l.
Proof.
  intros H. rewrite !intersection_update_of_list. f_equal.
  now apply List.filter_ext_in.
Qed.

Lemma contains_fold_intersection ls :
  forall s x,
    contains (fold_left intersection_update ls s) x =
    contains s x && forallb (fun l => contains l x) ls.
Proof.
  induction ls as [|l ls IH]; intros s x; simpl.
  - now rewrite andb_true_r.
  - now rewrite IH, contains_intersection_update, andb_assoc.
Qed.

(** X3: the set made of the first domain's issuers.  For every identifier
    of the list the set holds the first issuer with that identifier, with
    its priority; it holds nothing else and no identifier twice, and its
    members stand in the order they have in the list. *)
Theorem first_domain_set (issuers : list Issuer) :
  exists s,
    issuers_intersection [issuers] = Some s /\
    (forall x, In x s <-> first_with_id (issuer x) issuers = Some x) /\
    (forall id, has_id id s <-> has_id id issuers) /\
    NoDup (map issuer s) /\
    sublist s issuers.
Proof.
  exists (of_list issuers).
  split; [reflexivity|].
  split; [intros x; apply of_list_spec|].
  split; [intros id; apply has_id_of_list|].
  split; [apply of_list_nodup|].
  destruct (fold_add_sublist issuers []) as (k & E & Hk).
  unfold of_list. now rewrite E.
Qed.

(** X4: with two or more domains the intersection is made from the last
    domain's list alone: its issuers whose identifier every earlier domain
    has, in the order of that list, each identifier once.  The earlier
    domains count only through the identifiers they have. *)
Theorem intersection_from_last_domain
    (first : list Issuer) (others : list (list Issuer)) (last : list Issuer) :
  issuers_intersection (first :: others ++ [last]) =
  Some (of_list
          (List.filter
             (fun x => forallb (fun l => contains l x) (first :: others))
             last)).
Proof.
  rewrite issuers_intersection_cons, fold_left_app. simpl fold_left.
  rewrite intersection_update_of_list. do 2 f_equal.
  apply List.filter_ext. intros x.
  now rewrite contains_fold_intersection, contains_of_list.
Qed.

(** X5: a domain that comes twice in a row counts once: intersecting
    again with the list that was just intersected with, or with the list
    the set was made of, changes nothing, whatever domains come before and
    after. *)
Theorem repeated_domain_changes_nothing
    (before after : list (list Issuer)) (issuers : list Issuer) :
  issuers_intersection (before ++ issuers :: issuers :: after) =
  issuers_intersection (before ++ issuers :: after).
Proof.
  assert (Hiu : forall s,
             intersection_update (intersection_update s issuers) issuers =
             intersection_update s issuers).
  { intros s. apply intersection_update_ext. intros x Hx.
    now rewrite contains_intersection_update, (contains_In _ _ Hx), andb_true_r. }
  destruct before as [|first rest].
  - simpl app. rewrite !issuers_intersection_cons. simpl. do 2 f_equal.
    rewrite intersection_update_of_list. f_equal.
    apply List.forallb_filter_id, forallb_forall. intros x Hx.
    rewrite contains_of_list. apply contains_In.
    first [exact Hx|now apply list_elem_of_In].
  - simpl app. rewrite !issuers_intersection_cons, !fold_left_app. simpl.
    now rewrite Hiu.
Qed.

End SetMore.

(** ** More on the selection *)

Section SelectMore.

Lemma resolve_priority_ok c p :
  resolve_priority c = Ok p ->
  (get_property c "priority" None = None /\ p = 0) \/
  (exists text, get_property c "priority" None = Some text /\
                Bytes.int text = Some p /\ 1 <= p).
Proof.
  unfold resolve_priority.
  destruct (get_property c "priority" None) as [text|]; [|intros [= <-]; now left].
  destruct (Bytes.int text) as [q|] eqn:Ei; [|discriminate].
  destruct (q <? 1) eqn:Eq; [discriminate|].
  intros [= <-]. apply Z.ltb_ge in Eq. right. now exists text.
Qed.

Lemma select_issuers_ok wild rr issuers :
  select_issuers wild rr = Ok issuers ->
  Forall2 (fun c i => issuer_of_record c = Ok i)
    (surviving (chosen_records wild rr)) issuers.
Proof.
  rewrite select_issuers_chosen.
  destruct (chosen_records wild rr) as [|c l]; [discriminate|].
  rewrite build_issuers_spec.
  destruct (map_result issuer_of_record (surviving (c :: l))) as [out|e] eqn:Em;
    [|discriminate].
  intros [= <-]. now apply map_result_ok.
Qed.

(** X6: the priorities that selection gives.  An issuer has priority 0
    when its record assigns no value to [priority], and otherwise the
    integer the value reads as, which is at least 1; no issuer has a
    negative priority. *)
Theorem select_issuers_priorities
    (wild : bool) (rr : list Rdata) (issuers : list Issuer)
    (Hsel : select_issuers wild rr = Ok issuers) :
  Forall (fun i => 0 <= priority i) issuers /\
  Forall2
    (fun c i =>
       issuer i = caa_issuer c /\
       ((get_property c "priority" None = None /\ priority i = 0) \/
        (exists text, get_property c "priority" None = Some text /\
                      Bytes.int text = Some (priority i) /\ 1 <= priority i)))
    (surviving (chosen_records wild rr)) issuers.
Proof.
  apply select_issuers_ok in Hsel.
  assert (H2 : Forall2
    (fun c i =>
       issuer i = caa_issuer c /\
       ((get_property c "priority" None = None /\ priority i = 0) \/
        (exists text, get_property c "priority" None = Some text /\
                      Bytes.int text = Some (priority i) /\ 1 <= priority i)))
    (surviving (chosen_records wild rr)) issuers).
  { eapply Forall2_impl; [exact Hsel|].
    intros c i H. apply issuer_of_record_ok in H as [Hi Hp].
    split; [exact Hi|now apply resolve_priority_ok]. }
  split; [|exact H2].
  clear Hsel. induction H2 as [|c i cs is_ [_ H] _ IH]; constructor; [|exact IH].
  destruct H as [[_ ->]|(t & _ & _ & H)]; lia.
Qed.

Lemma map_result_map {A B C} (f : B -> result C) (g : A -> B) l :
  map_result (fun x => f (g x)) l = map_result f (map g l).
Proof. induction l as [|x l IH]; simpl; [reflexivity|now rewrite IH]. Qed.

Lemma values_with_tag_visible t rr :
  (t = "issuewild" \/ t = "issue")%string ->
  map value (List.filter (fun r => String.eqb (tag r) t) rr) =
  map snd (List.filter (fun p => String.eqb (fst p) t) (visible_records rr)).
Proof.
  intros Ht. unfold visible_records.
  induction rr as [|r rr IH]; [reflexivity|].
  simpl. destruct (String.eqb (tag r) t) eqn:E.
  - assert (Hv : String.eqb (tag r) "issuewild" || String.eqb (tag r) "issue" = true).
    { apply String.eqb_eq in E. rewrite E.
      destruct Ht as [->| ->]; reflexivity. }
    rewrite Hv. simpl. rewrite E. simpl. now f_equal.
  - destruct (String.eqb (tag r) "issuewild" || String.eqb (tag r) "issue");
      simpl; [rewrite E|]; exact IH.
Qed.

Lemma parsed_with_tag_visible t rr :
  (t = "issuewild" \/ t = "issue")%string ->
  parsed_with_tag t rr =
  map_result parse
    (map snd (List.filter (fun p => String.eqb (fst p) t) (visible_records rr))).
Proof.
  intros Ht. unfold parsed_with_tag.
  now rewrite (map_result_map parse value), values_with_tag_visible.
Qed.

(** X7: selection sees of a record set only the tags and values of its
    [issue] and [issuewild] records, in their order: record sets that agree
    on these give the same outcome, so the flags of a record and records
    with any other tag never matter. *)
Theorem select_issuers_visible_records
    (wild : bool) (rr rr' : list Rdata)
    (Hsame : visible_records rr = visible_records rr') :
  select_issuers wild rr = select_issuers wild rr'.
Proof.
  unfold select_issuers.
  rewrite !(parsed_with_tag_visible "issuewild") by now left.
  rewrite !(parsed_with_tag_visible "issue") by now right.
  now rewrite Hsame.
Qed.

Lemma records_with_tag_none t rr :
  (forall r, In r rr -> tag r <> t) -> records_with_tag t rr = [].
Proof.
  intros H. unfold records_with_tag.
  induction rr as [|r rr IH]; [reflexivity|]. simpl.
  destruct (String.eqb (tag r) t) eqn:E.
  - apply String.eqb_eq in E. exfalso. apply (H r); [now left|exact E].
  - apply IH. intros r' Hr'. apply H. now right.
Qed.

Lemma records_with_tag_some t rr :
  (exists r, In r rr /\ tag r = t) -> records_with_tag t rr <> [].
Proof.
  intros (r & Hr & Et). unfold records_with_tag.
  assert (Hin : In r (List.filter (fun r => String.eqb (tag r) t) rr)).
  { apply filter_In. split; [exact Hr|now apply String.eqb_eq]. }
  destruct (List.filter _ rr); [contradiction|discriminate].
Qed.

Lemma filter_twice {A} (f : A -> bool) l :
  List.filter f (List.filter f l) = List.filter f l.
Proof.
  induction l as [|x l IH]; [reflexivity|]. simpl.
  destruct (f x) eqn:E; simpl; [rewrite E; now f_equal|exact IH].
Qed.

(** X8: the wildcard rule.  A record set without [issuewild] records
    serves a wildcard domain exactly as it serves any other domain; a
    record set with an [issuewild] record serves a wildcard domain as if
    it had the [issuewild] records only. *)
Theorem wildcard_selection (rr : list Rdata) :
  ((forall r, In r rr -> tag r <> "issuewild"%string) ->
   select_issuers true rr = select_issuers false rr) /\
  ((exists r, In r rr /\ tag r = "issuewild"%string) ->
   select_issuers true rr =
   select_issuers true
     (List.filter (fun r => String.eqb (tag r) "issuewild") rr)).
Proof.
  split.
  - intros H. rewrite !select_issuers_chosen. unfold chosen_records.
    now rewrite (records_with_tag_none _ _ H).
  - intros H. pose proof (records_with_tag_some _ _ H) as Hne.
    rewrite !select_issuers_chosen. unfold chosen_records.
    assert (E : records_with_tag "issuewild"
                  (List.filter (fun r => String.eqb (tag r) "issuewild") rr) =
                records_with_tag "issuewild" rr).
    { unfold records_with_tag. now rewrite filter_twice. }
    rewrite E.
    destruct (records_with_tag "issuewild" rr); [congruence|reflexivity].
Qed.

End SelectMore.

(** ** More on the directory URL *)

Section DirectoryMore.

Lemma lower_char_idem c : lower_char (lower_char c) = lower_char c.
Proof. destruct c as [[] [] [] [] [] [] [] []]; reflexivity. Qed.

Lemma is_ascii_lower_char c : is_ascii (lower_char c) = is_ascii c.
Proof. destruct c as [[] [] [] [] [] [] [] []]; reflexivity. Qed.

Lemma lower_idem s : lower (lower s) = lower s.
Proof.
  induction s as [|c s IH]; simpl; [reflexivity|].
  now rewrite lower_char_idem, IH.
Qed.

Lemma decode_ascii_lower s :
  decode_ascii s = Some s -> decode_ascii (lower s) = Some (lower s).
Proof.
  unfold decode_ascii.
  assert (E : forallb is_ascii (list_ascii_of_string (lower s)) =
              forallb is_ascii (list_ascii_of_string s)).
  { induction s as [|c s IH]; simpl; [reflexivity|].
    now rewrite is_ascii_lower_char, IH. }
  rewrite E. now destruct (forallb is_ascii (list_ascii_of_string s)).
Qed.

Lemma decode_ascii_Forall s :
  Forall (fun c => (code c < 128)%N) (list_ascii_of_string s) ->
  decode_ascii s = Some s.
Proof.
  intros H. apply forallb_is_ascii in H. unfold decode_ascii. now rewrite H.
Qed.

Lemma length_append a b :
  String.length (String.append a b) = (String.length a + String.length b)%nat.
Proof.
  induction a as [|c a IH]; [reflexivity|].
  rewrite append_cons_char. simpl. now rewrite IH.
Qed.

Lemma append_nil_l s : String.append "" s = s.
Proof. reflexivity. Qed.

Lemma append_inj_tail a b s :
  String.append a s = String.append b s -> a = b.
Proof.
  revert b. induction a as [|c a IH]; intros [|d b] H.
  - reflexivity.
  - apply (f_equal String.length) in H.
    rewrite !length_append in H. simpl in H. lia.
  - apply (f_equal String.length) in H.
    rewrite !length_append in H. simpl in H. lia.
  - rewrite !append_cons_char in H. injection H as -> H. f_equal. now apply IH.
Qed.

(** X9: the URL depends on the identifier up to the case of its letters
    and on nothing less.  Two ASCII identifiers get the same URL exactly
    when they are equal after lower-casing, and an identifier and its
    lower-cased form get the same URL. *)
Theorem issuer_to_directory_up_to_case (a b : bytes)
    (Ha : Forall (fun c => (code c < 128)%N) (list_ascii_of_string a))
    (Hb : Forall (fun c => (code c < 128)%N) (list_ascii_of_string b)) :
  (issuer_to_directory a = issuer_to_directory b <-> lower a = lower b) /\
  issuer_to_directory (lower a) = issuer_to_directory a.
Proof.
  apply decode_ascii_Forall in Ha, Hb.
  pose proof (decode_ascii_lower a Ha) as Hla.
  unfold issuer_to_directory. rewrite Ha, Hb, Hla, lower_idem.
  split; [|reflexivity].
  split.
  - intros [= H]. rewrite !append_nil_l in H. now apply append_inj_tail in H.
  - now intros ->.
Qed.

End DirectoryMore.

(** ** The tree walk *)

Section WalkFacts.

Context {W : Type} `{C : Collaborators W}.

Lemma state_eta (s : State W) : mkState (world s) (queries s ++ []) = s.
Proof. destruct s. simpl. now rewrite app_nil_r. Qed.

(** The loop and the check after it follow [walks]. *)
Lemma tree_walk_walks name :
  forall rr0 (s : State W),
    rrset_truthy rr0 = false ->
    exists names outcome w',
      walks name (world s) names outcome w' /\
      (rr <- tree_walk name rr0 ;;
       match rr with
       | Some (r :: rs) => ret (r :: rs)
       | _ => raise NoCAARecordsError
       end) s = (outcome, mkState w' (queries s ++ names)).
Proof.
  induction name as [|label parent IH]; intros rr0 s Hrr0.
  - exists [], (Raise NoCAARecordsError), (world s).
    split; [constructor|].
    unfold bind, ret, raise. simpl. rewrite state_eta.
    destruct rr0 as [[|r rs]|]; try reflexivity. discriminate.
  - unfold bind. simpl. unfold bind, resolve_caa.
    destruct (resolve (label :: parent) (world s)) as [[|rr] w1] eqn:Er.
    + exists [label :: parent], (Raise DNSResolutionError), w1.
      split; [now constructor|reflexivity].
    + destruct (rrset_truthy rr) eqn:Et.
      * destruct rr as [[|r rs]|]; try discriminate.
        exists [label :: parent], (Ok (r :: rs)), w1.
        split; [now constructor|reflexivity].
      * destruct (IH rr (mkState w1 (queries s ++ [label :: parent])) Et)
          as (names & outcome & w' & Hw & E).
        exists ((label :: parent) :: names), outcome, w'.
        split; [now apply walks_climb with w1 rr|].
        cbn [queries] in E. rewrite <- app_assoc in E. exact E.
Qed.

Lemma find_caa_walks (domain : Name) (s : State W) :
  exists names outcome w',
    walks (start_name domain) (world s) names outcome w' /\
    find_caa domain s = (outcome, mkState w' (queries s ++ names)).
Proof. apply tree_walk_walks. reflexivity. Qed.

(** Only the name and its ancestors are looked up. *)
Lemma walks_names name w names outcome w' :
  walks name w names outcome w' ->
  forall q, In q names -> exists k, q = skipn k name /\ (k < length name)%nat.
Proof.
  induction 1 as [w|label parent w w' Hr|label parent w w' r rs Hr
                  |label parent w w' rr names outcome w'' Hr Ht Hw IH];
    intros q Hq.
  - contradiction.
  - destruct Hq as [<-|[]]. exists 0%nat. split; [reflexivity|simpl; lia].
  - destruct Hq as [<-|[]]. exists 0%nat. split; [reflexivity|simpl; lia].
  - destruct Hq as [<-|Hq]; [exists 0%nat; split; [reflexivity|simpl; lia]|].
    destruct (IH q Hq) as (k & -> & Hk). exists (S k).
    split; [reflexivity|simpl; lia].
Qed.

(** A record set that the walk hands on is one the resolver answered with. *)
Lemma walks_found_answer name w names rr w' :
  walks name w names (Ok rr) w' ->
  exists q w0, In q names /\ resolve q w0 = (Answer (Some rr), w') /\ rr <> [].
Proof.
  remember (Ok rr) as outcome eqn:Eo. intros H. revert Eo.
  induction H as [w|label parent w w' Hr|label parent w w' r rs Hr
                  |label parent w w' rr' names outcome w'' Hr Ht Hw IH];
    intros Eo; try discriminate.
  - injection Eo as <-. exists (label :: parent), w.
    split; [now left|]. split; [assumption|discriminate].
  - destruct (IH Eo) as (q & w0 & Hq & Hres & Hne).
    exists q, w0. split; [now right|]. split; assumption.
Qed.

Lemma start_name_wild (domain : Name) :
  is_wild domain = true ->
  exists parent, domain = "*"%string :: parent /\ start_name domain = parent.
Proof.
  unfold start_name. destruct domain as [|label parent]; simpl; [discriminate|].
  intros H. rewrite H. apply String.eqb_eq in H. subst label. now exists parent.
Qed.

Lemma start_name_plain (domain : Name) :
  is_wild domain = false -> start_name domain = domain.
Proof. unfold start_name. now intros ->. Qed.

End WalkFacts.

(** ** The loop over the domains *)

Section DiscoverFacts.

Context {W : Type} `{C : Collaborators W}.

Lemma process_domain_walk_raises text domain (s : State W) e s' :
  from_text text = Some domain ->
  find_caa domain s = (Raise e, s') ->
  process_domain text s = (Raise e, s').
Proof.
  intros Ht Hf. unfold process_domain. rewrite Ht. unfold bind. now rewrite Hf.
Qed.

Lemma process_domain_walk_ok text domain (s : State W) rr s1 rr' w2 :
  from_text text = Some domain ->
  find_caa domain s = (Ok rr, s1) ->
  processing_order rr (world s1) = (rr', w2) ->
  process_domain text s =
    (match select_issuers (is_wild domain) rr' with
     | Ok issuers => Ok (domain, issuers)
     | Raise e => Raise e
     end, mkState w2 (queries s1)).
Proof.
  intros Ht Hf Ho. unfold process_domain. rewrite Ht.
  unfold bind. rewrite Hf. unfold ordered. rewrite Ho.
  unfold lift, ret. now destruct (select_issuers (is_wild domain) rr').
Qed.

Lemma collect_domains_cons text rest acc (s : State W) :
  collect_domains (text :: rest) acc s =
  match process_domain text s with
  | (Ok entry, s1) => collect_domains rest (acc ++ [entry]) s1
  | (Raise e, s1) => (Raise e, s1)
  end.
Proof.
  simpl. unfold bind. now destruct (process_domain text s) as [[entry|e] s1].
Qed.

(** What was collected before does not matter to what is collected next. *)
Lemma collect_domains_acc ds :
  forall acc (s : State W),
    collect_domains ds acc s =
    match collect_domains ds [] s with
    | (Ok new, s') => (Ok (acc ++ new), s')
    | (Raise e, s') => (Raise e, s')
    end.
Proof.
  induction ds as [|text rest IH]; intros acc s.
  - simpl. unfold ret. now rewrite app_nil_r.
  - rewrite !collect_domains_cons.
    destruct (process_domain text s) as [[entry|e] s1]; [|reflexivity].
    rewrite (IH (acc ++ [entry])), (IH ([] ++ [entry])).
    destruct (collect_domains rest [] s1) as [[new|e] s2]; [|reflexivity].
    now rewrite <- app_assoc.
Qed.

(** The domains are processed one after the other, each from the state
    the one before left. *)
Lemma collect_domains_app before after (s : State W) :
  collect_domains (before ++ after) [] s =
  match collect_domains before [] s with
  | (Ok done, s1) =>
      match collect_domains after [] s1 with
      | (Ok more, s2) => (Ok (done ++ more), s2)
      | (Raise e, s2) => (Raise e, s2)
      end
  | (Raise e, s1) => (Raise e, s1)
  end.
Proof.
  revert s. induction before as [|text rest IH]; intros s.
  - cbn. now destruct (collect_domains after [] s) as [[more|e] s2].
  - simpl app. rewrite !collect_domains_cons.
    destruct (process_domain text s) as [[entry|e] s1]; [|reflexivity].
    rewrite (collect_domains_acc (rest ++ after)), (collect_domains_acc rest), IH.
    destruct (collect_domains rest [] s1) as [[done|e] s2]; [|reflexivity].
    destruct (collect_domains after [] s2) as [[more|e] s3]; [|reflexivity].
    now rewrite app_assoc.
Qed.

Lemma collect_domains_one text rest (s : State W) :
  collect_domains (text :: rest) [] s =
  match process_domain text s with
  | (Ok entry, s1) =>
      match collect_domains rest [] s1 with
      | (Ok more, s2) => (Ok (entry :: more), s2)
      | (Raise e, s2) => (Raise e, s2)
      end
  | (Raise e, s1) => (Raise e, s1)
  end.
Proof.
  rewrite collect_domains_cons.
  destruct (process_domain text s) as [[entry|e] s1]; [|reflexivity].
  now rewrite collect_domains_acc.
Qed.

Lemma make_resolver_cases (s : State W) :
  (exists s0, make_resolver s = (Ok tt, s0) /\ queries s0 = queries s) \/
  (exists s0, make_resolver s = (Raise NoResolverConfiguration, s0) /\
              queries s0 = queries s).
Proof.
  unfold make_resolver. destruct (new_resolver (world s)) as [[|] w]; eauto.
Qed.

Lemma make_resolver_raises (s s0 : State W) e :
  make_resolver s = (Raise e, s0) -> e = NoResolverConfiguration.
Proof.
  destruct (make_resolver_cases s) as [(s1 & E & _)|(s1 & E & _)];
    rewrite E; congruence.
Qed.

Lemma auto_discover_server_unbuilt ds (s s0 : State W) e :
  make_resolver s = (Raise e, s0) ->
  auto_discover_server ds s = (Raise e, s0).
Proof. intros H. unfold auto_discover_server, bind. now rewrite H. Qed.

Lemma auto_discover_server_unfold ds (s s0 : State W) :
  make_resolver s = (Ok tt, s0) ->
  auto_discover_server ds s =
  match collect_domains ds [] s0 with
  | (Ok domains, s1) =>
      match issuers_intersection (map snd domains) with
      | Some (x :: common) =>
          (Ok (map issuer (sorted_by_priority (set_iteration_order (x :: common)))), s1)
      | _ => (Raise NoCommonIssuersError, s1)
      end
  | (Raise e, s1) => (Raise e, s1)
  end.
Proof.
  intros H. unfold auto_discover_server, bind. rewrite H.
  destruct (collect_domains ds [] s0) as [[domains|e] s1]; [|reflexivity].
  now destruct (issuers_intersection (map snd domains)) as [[|x common]|].
Qed.

Lemma auto_discover_server_ok_built ds (s s' : State W) out :
  auto_discover_server ds s = (Ok out, s') ->
  exists s0, make_resolver s = (Ok tt, s0) /\ queries s0 = queries s.
Proof.
  intros H. destruct (make_resolver_cases s) as [(s0 & E & Q)|(s0 & E & _)].
  - now exists s0.
  - rewrite (auto_discover_server_unbuilt _ _ _ _ E) in H. discriminate.
Qed.

(** An error inside one domain is the outcome of the call. *)
Lemma auto_discover_server_aborts before text rest (s_in s0 s s' : State W) done e :
  make_resolver s_in = (Ok tt, s0) ->
  collect_domains before [] s0 = (Ok done, s) ->
  process_domain text s = (Raise e, s') ->
  auto_discover_server (before ++ text :: rest) s_in = (Raise e, s').
Proof.
  intros Hr Hc Hp.
  rewrite (auto_discover_server_unfold _ _ _ Hr), collect_domains_app, Hc.
  now rewrite collect_domains_one, Hp.
Qed.


(** C4: the walk of a domain starts at the parent when the leading label
    is [*] and at the domain otherwise.  From there it follows [walks]:
    a failed lookup ends it with the resolution error, a non-empty record
    set ends it with that set, an empty answer sends it to the parent, and
    the root ends it with the no-records error.  Only the start name and
    its ancestors are looked up, so a wildcard name itself never is.  An
    error of the walk is the outcome of the whole call (which has built
    its resolver to get there), with no lookup after it. *)
Theorem find_caa_spec (domain : Name) (s : State W) :
  (is_wild domain = true ->
   exists parent, domain = "*"%string :: parent /\ start_name domain = parent) /\
  (is_wild domain = false -> start_name domain = domain) /\
  exists names outcome w',
    walks (start_name domain) (world s) names outcome w' /\
    find_caa domain s = (outcome, mkState w' (queries s ++ names)) /\
    (forall q, In q names ->
       exists k, q = skipn k (start_name domain) /\
                 (k < length (start_name domain))%nat) /\
    (is_wild domain = true -> ~ In domain names) /\
    (forall text before rest s_in s0 done e,
       make_resolver s_in = (Ok tt, s0) ->
       from_text text = Some domain ->
       collect_domains before [] s0 = (Ok done, s) ->
       outcome = Raise e ->
       auto_discover_server (before ++ text :: rest) s_in =
         (Raise e, mkState w' (queries s ++ names))).
Proof.
  split; [apply start_name_wild|]. split; [apply start_name_plain|].
  destruct (find_caa_walks domain s) as (names & outcome & w' & Hw & E).
  exists names, outcome, w'.
  split; [exact Hw|]. split; [exact E|].
  split; [exact (walks_names _ _ _ _ _ Hw)|].
  split; [|intros text before rest s_in s0 done e Hr Ht Hc ->;
           eapply auto_discover_server_aborts; [exact Hr|exact Hc|];
           eapply process_domain_walk_raises; [exact Ht|exact E]].
  intros Hwild Hin.
  destruct (start_name_wild domain Hwild) as (parent & Ed & Es).
  destruct (walks_names _ _ _ _ _ Hw domain Hin) as (k & Ek & _).
  rewrite Es in Ek. apply (f_equal (@length _)) in Ek.
  rewrite Ed, length_skipn in Ek. simpl in Ek. lia.
Qed.




(** C3 (amended): the record set the selector works on is what
    [processing_order()] makes of the record set that the walk got from
    the resolver; nothing else is done to it between the walk and the
    selection. *)
Theorem process_domain_uses_processing_order
    (text : string) (domain : Name) (s s1 : State W)
    (rr rr' : list Rdata) (w2 : W)
    (Hname : from_text text = Some domain)
    (Hwalk : find_caa domain s = (Ok rr, s1))
    (Horder : processing_order rr (world s1) = (rr', w2)) :
  process_domain text s =
    (match select_issuers (is_wild domain) rr' with
     | Ok issuers => Ok (domain, issuers)
     | Raise e => Raise e
     end, mkState w2 (queries s1)) /\
  exists q w0, resolve q w0 = (Answer (Some rr), world s1).
Proof.
  split; [now apply process_domain_walk_ok with rr|].
  destruct (find_caa_walks domain s) as (names & outcome & w' & Hw & E).
  rewrite Hwalk in E. injection E as <- ->.
  destruct (walks_found_answer _ _ _ _ _ Hw) as (q & w0 & _ & Hr & _).
  now exists q, w0.
Qed.

(** C9 (amended): the call never returns an empty list.  With no domain
    at all it raises an error: the no-common-issuers error once the
    resolver is built, and the resolver's configuration error, which line
    55 lets through, when it cannot be built; nothing is looked up either
    way.  A list that the call returns has at least one identifier. *)
Theorem auto_discover_server_never_empty
    (Hiter : forall t, Permutation (set_iteration_order t) t) :
  (forall s s0 : State W,
     make_resolver s = (Ok tt, s0) ->
     auto_discover_server [] s = (Raise NoCommonIssuersError, s0)) /\
  (forall ds (s s0 : State W) e,
     make_resolver s = (Raise e, s0) ->
     auto_discover_server ds s = (Raise NoResolverConfiguration, s0)) /\
  (forall s : State W,
     exists e s',
       auto_discover_server [] s = (Raise e, s') /\
       queries s' = queries s /\
       (e = NoCommonIssuersError \/ e = NoResolverConfiguration)) /\
  (forall ds (s s' : State W) out,
     auto_discover_server ds s = (Ok out, s') -> out <> []).
Proof.
  assert (Hempty : forall s s0 : State W,
             make_resolver s = (Ok tt, s0) ->
             auto_discover_server [] s = (Raise NoCommonIssuersError, s0)).
  { intros s s0 H. now rewrite (auto_discover_server_unfold _ _ _ H). }
  assert (Hunbuilt : forall ds (s s0 : State W) e,
             make_resolver s = (Raise e, s0) ->
             auto_discover_server ds s = (Raise NoResolverConfiguration, s0)).
  { intros ds s s0 e H. rewrite (auto_discover_server_unbuilt _ _ _ _ H).
    now rewrite (make_resolver_raises _ _ _ H). }
  split; [exact Hempty|]. split; [exact Hunbuilt|]. split.
  { intros s. destruct (make_resolver_cases s) as [(s0 & E & Q)|(s0 & E & Q)].
    - exists NoCommonIssuersError, s0. rewrite (Hempty _ _ E). auto.
    - exists NoResolverConfiguration, s0. rewrite (Hunbuilt _ _ _ _ E). auto. }
  intros ds s s' out Hrun.
  destruct (auto_discover_server_ok_built _ _ _ _ Hrun) as (s0 & Hr & _).
  rewrite (auto_discover_server_unfold _ _ _ Hr) in Hrun.
  destruct (collect_domains ds [] s0) as [[domains|e] s1]; [|discriminate].
  destruct (issuers_intersection (map snd domains)) as [[|x common]|];
    try discriminate.
  injection Hrun as <- _. intros H.
  apply (f_equal (@length _)) in H.
  rewrite length_map, (Permutation_length (sorted_by_priority_perm _)),
    (Permutation_length (Hiter _)) in H.
  discriminate.
Qed.


(** C2 (amended): a list that the call returns holds the identifiers
    common to all domains, each once, as the identifiers of the members of
    the intersection put in ascending order of priority; members of one
    priority stand in the order in which the set is iterated, which is for
    the interpreter to choose and need not be the order of the records,
    and no other ascending arrangement has that property. *)
Theorem auto_discover_server_sorted
    (ds : list string) (s s' : State W) (out : list bytes)
    (Hiter : forall t, Permutation (set_iteration_order t) t)
    (Hrun : auto_discover_server ds s = (Ok out, s')) :
  exists s0 domains common ranked,
    make_resolver s = (Ok tt, s0) /\
    collect_domains ds [] s0 = (Ok domains, s') /\
    issuers_intersection (map snd domains) = Some common /\
    (forall id, has_id id common <-> Forall (has_id id) (map snd domains)) /\
    out = map issuer ranked /\
    NoDup out /\
    Permutation ranked common /\
    StronglySorted priority_le ranked /\
    (forall p,
       with_priority p ranked = with_priority p (set_iteration_order common)) /\
    (forall other,
       StronglySorted priority_le other ->
       (forall p,
          with_priority p other = with_priority p (set_iteration_order common)) ->
       other = ranked).
Proof.
  destruct (auto_discover_server_ok_built _ _ _ _ Hrun) as (s0 & Hr & _).
  rewrite (auto_discover_server_unfold _ _ _ Hr) in Hrun.
  destruct (collect_domains ds [] s0) as [[domains|e] s1] eqn:Ec; [|discriminate].
  destruct (issuers_intersection (map snd domains)) as [[|x common]|] eqn:Ei;
    try discriminate.
  injection Hrun as <- <-.
  exists s0, domains, (x :: common),
    (sorted_by_priority (set_iteration_order (x :: common))).
  split; [exact Hr|]. split; [exact Ec|]. split; [exact Ei|].
  split; [intros id; now apply issuers_intersection_common|].
  split; [reflexivity|].
  split.
  { rewrite sorted_by_priority_perm, Hiter.
    exact (issuers_intersection_nodup _ _ Ei). }
  split; [now rewrite sorted_by_priority_perm|].
  split; [apply sorted_by_priority_sorted|].
  split; [intros p; apply sorted_by_priority_stable|].
  intros other Hs Hp. apply stable_sort_unique; [assumption| |].
  - apply sorted_by_priority_sorted.
  - intros p. now rewrite Hp, sorted_by_priority_stable.
Qed.

(** ** More on the walk and the loop *)

Lemma walks_error name (w w' : W) names e :
  walks name w names (Raise e) w' ->
  e = DNSResolutionError \/ e = NoCAARecordsError.
Proof.
  remember (Raise e) as outcome eqn:Eo. intros H. revert Eo.
  induction H; intros Eo; try discriminate; try (injection Eo as <-); auto.
Qed.

Lemma walks_exact name (w w' : W) names outcome :
  walks name w names outcome w' ->
  names = map (fun k => skipn k name) (seq 0 (length names)) /\
  (length names <= length name)%nat /\
  NoDup names /\
  (outcome = Raise NoCAARecordsError -> length names = length name).
Proof.
  intros H. pose proof (walks_names _ _ _ _ _ H) as Hsuffix. revert Hsuffix.
  induction H as [w|label parent w w' Hr|label parent w w' r rs Hr
                  |label parent w w' rr names outcome w'' Hr Ht Hw IH];
    intros Hsuffix.
  - repeat split; try reflexivity. constructor.
  - repeat split; [simpl; lia|apply NoDup_singleton|discriminate].
  - repeat split; [simpl; lia|apply NoDup_singleton|discriminate].
  - destruct (IH (walks_names _ _ _ _ _ Hw)) as (E & Hlen & Hnd & Hex).
    split; [|split; [simpl; lia|split]].
    + simpl. f_equal. rewrite <- seq_shift, map_map. exact E.
    + apply NoDup_cons. split; [|exact Hnd].
      intros Hin. apply list_elem_of_In in Hin.
      destruct (walks_names _ _ _ _ _ Hw _ Hin) as (k & Ek & _).
      apply (f_equal (@length _)) in Ek. rewrite length_skipn in Ek.
      simpl in Ek. lia.
    + intros Eo. simpl. f_equal. now apply Hex.
Qed.

(** X10: the lookups of one walk.  They are the start name and its
    ancestors in turn, each once and never the root, so there are at most
    as many as the start name has labels; and the walk ends with the
    no-records error of its own only after all of them. *)
Theorem find_caa_lookups (domain : Name) (s : State W) :
  exists names outcome w',
    find_caa domain s = (outcome, mkState w' (queries s ++ names)) /\
    names = map (fun k => skipn k (start_name domain)) (seq 0 (length names)) /\
    (length names <= length (start_name domain))%nat /\
    NoDup names /\
    ~ In root names /\
    (outcome = Raise NoCAARecordsError ->
     length names = length (start_name domain)).
Proof.
  destruct (find_caa_walks domain s) as (names & outcome & w' & Hw & E).
  destruct (walks_exact _ _ _ _ _ Hw) as (En & Hlen & Hnd & Hex).
  exists names, outcome, w'.
  split; [exact E|]. split; [exact En|]. split; [exact Hlen|].
  split; [exact Hnd|]. split; [|exact Hex].
  intros Hin. destruct (walks_names _ _ _ _ _ Hw _ Hin) as (k & Ek & Hk).
  apply (f_equal (@length _)) in Ek. rewrite length_skipn in Ek.
  unfold root in Ek. simpl in Ek. lia.
Qed.

Lemma select_issuers_raises wild rr e :
  select_issuers wild rr = Raise e ->
  e = NoCAARecordsError \/ e = InvalidPriorityError.
Proof.
  rewrite select_issuers_chosen.
  destruct (chosen_records wild rr) as [|c l]; [intros [= <-]; now left|].
  rewrite build_issuers_spec.
  destruct (map_result issuer_of_record (surviving (c :: l))) as [out|e'] eqn:Em;
    [discriminate|].
  intros [= <-]. apply map_result_raises in Em as (x & _ & Ex).
  apply issuer_of_record_raises in Ex as [-> _]. now right.
Qed.

Lemma process_domain_raises text (s s' : State W) e :
  process_domain text s = (Raise e, s') ->
  e = DomainParseError \/ e = DNSResolutionError \/
  e = NoCAARecordsError \/ e = InvalidPriorityError.
Proof.
  unfold process_domain.
  destruct (from_text text) as [domain|]; [|intros [= <- _]; now left].
  unfold bind.
  destruct (find_caa_walks domain s) as (names & outcome & w' & Hw & E).
  rewrite E. destruct outcome as [rr|e0].
  - unfold ordered. simpl world.
    destruct (processing_order rr w') as [rr' w2].
    unfold lift, ret.
    destruct (select_issuers (is_wild domain) rr') as [issuers|e1] eqn:Es;
      [discriminate|].
    intros [= <- _]. apply select_issuers_raises in Es. tauto.
  - intros [= <- _]. apply walks_error in Hw. tauto.
Qed.

Lemma collect_domains_raises ds :
  forall (s s' : State W) e,
    collect_domains ds [] s = (Raise e, s') ->
    exists before text rest done s1,
      ds = before ++ text :: rest /\
      collect_domains before [] s = (Ok done, s1) /\
      process_domain text s1 = (Raise e, s').
Proof.
  induction ds as [|text rest IH]; intros s s' e H; [discriminate|].
  rewrite collect_domains_one in H.
  destruct (process_domain text s) as [[entry|e0] s1] eqn:Ep.
  - destruct (collect_domains rest [] s1) as [[more|e1] s2] eqn:Ec; [discriminate|].
    injection H as <- <-.
    destruct (IH _ _ _ Ec) as (before & text' & rest' & done & s3 & -> & Hb & Hp).
    exists (text :: before), text', rest', (entry :: done), s3.
    split; [reflexivity|]. split; [|exact Hp].
    now rewrite collect_domains_one, Ep, Hb.
  - injection H as <- <-.
    exists [], text, rest, [], s. auto.
Qed.

(** X11: a domain name that cannot be read ends the call, once its
    resolver is built, with the domain-parse error before anything is
    looked up for it: the state is the one the domains before it left, and
    no later domain is touched. *)
Theorem unreadable_domain_aborts
    (before rest : list string) (text : string)
    (s_in s0 s : State W) (done : list (Name * list Issuer))
    (Hresolver : make_resolver s_in = (Ok tt, s0))
    (Hbefore : collect_domains before [] s0 = (Ok done, s))
    (Hname : from_text text = None) :
  auto_discover_server (before ++ text :: rest) s_in = (Raise DomainParseError, s).
Proof.
  eapply auto_discover_server_aborts; [exact Hresolver|exact Hbefore|].
  unfold process_domain. now rewrite Hname.
Qed.

(** X12: the errors of the call.  An error is the configuration error
    of the resolver, which line 55 lets through, raised before any domain
    is touched; or it is one of the five kinds of the module, never an
    exception of the parser.  In the second case it is the error of the
    first domain that fails, raised in the state that domain left, with no
    later domain processed; or it is the no-common-issuers error after all
    domains went through, there being no domain or no identifier that all
    of them have. *)
Theorem auto_discover_server_errors
    (ds : list string) (s s' : State W) (e : error)
    (Hrun : auto_discover_server ds s = (Raise e, s')) :
  (e = NoResolverConfiguration /\
   make_resolver s = (Raise NoResolverConfiguration, s') /\
   queries s' = queries s)
  \/
  (exists s0,
     make_resolver s = (Ok tt, s0) /\
     discovery_error e /\
     ((exists before text rest done s1,
         ds = before ++ text :: rest /\
         collect_domains before [] s0 = (Ok done, s1) /\
         process_domain text s1 = (Raise e, s'))
      \/
      (e = NoCommonIssuersError /\
       exists domains,
         collect_domains ds [] s0 = (Ok domains, s') /\
         (domains = [] \/ forall id, ~ Forall (has_id id) (map snd domains))))).
Proof.
  destruct (make_resolver_cases s) as [(s0 & Hr & _)|(s0 & Hr & Q)].
  2:{ left. rewrite (auto_discover_server_unbuilt _ _ _ _ Hr) in Hrun.
      injection Hrun as <- <-. auto. }
  right. exists s0. split; [exact Hr|].
  rewrite (auto_discover_server_unfold _ _ _ Hr) in Hrun.
  destruct (collect_domains ds [] s0) as [[domains|e0] s1] eqn:Ec.
  - assert (e = NoCommonIssuersError /\ s1 = s' /\
            (domains = [] \/ forall id, ~ Forall (has_id id) (map snd domains)))
      as (-> & -> & Hno).
    { destruct (issuers_intersection (map snd domains)) as [[|x common]|] eqn:Ei;
        try discriminate; injection Hrun as <- <-.
      - split; [reflexivity|]. split; [reflexivity|]. right.
        intros id H. apply (issuers_intersection_common _ _ id Ei) in H.
        destruct H as (y & [] & _).
      - split; [reflexivity|]. split; [reflexivity|]. left.
        destruct domains; [reflexivity|].
        simpl in Ei. rewrite issuers_intersection_cons in Ei. discriminate. }
    split; [unfold discovery_error; tauto|].
    right. split; [reflexivity|]. now exists domains.
  - injection Hrun as <- <-.
    destruct (collect_domains_raises _ _ _ _ Ec)
      as (before & text & rest & done & s2 & E & Hb & Hp).
    split.
    + apply process_domain_raises in Hp. unfold discovery_error. tauto.
    + left. now exists before, text, rest, done, s2.
Qed.

(** X13: when the call returns.  Once the resolver is built and every
    domain went through, the call returns a list exactly when there is a
    domain and some identifier that every domain has; nothing else can make
    it fail at that point. *)
Theorem auto_discover_server_returns
    (ds : list string) (s_in s s' : State W) (domains : list (Name * list Issuer))
    (Hresolver : make_resolver s_in = (Ok tt, s))
    (Hall : collect_domains ds [] s = (Ok domains, s')) :
  (exists out, auto_discover_server ds s_in = (Ok out, s')) <->
  (domains <> [] /\ exists id, Forall (has_id id) (map snd domains)).
Proof.
  rewrite (auto_discover_server_unfold _ _ _ Hresolver), Hall. split.
  - intros (out & H).
    destruct (issuers_intersection (map snd domains)) as [[|x common]|] eqn:Ei;
      try discriminate.
    split; [intros ->; discriminate|].
    exists (issuer x). apply (issuers_intersection_common _ _ _ Ei).
    exists x. split; [now left|reflexivity].
  - intros [Hne (id & Hid)].
    destruct domains as [|d domains]; [congruence|].
    simpl map in *. rewrite issuers_intersection_cons.
    pose proof (issuers_intersection_cons (snd d) (map snd domains)) as Ei.
    apply (issuers_intersection_common _ _ id Ei) in Hid.
    destruct (fold_left PySet.intersection_update (map snd domains)
                (PySet.of_list (snd d))) as [|x common].
    + destruct Hid as (y & [] & _).
    + eauto.
Qed.

Lemma with_priority_absent p l :
  ~ In p (map priority l) -> with_priority p l = [].
Proof.
  induction l as [|x l IH]; intros H; [reflexivity|].
  unfold with_priority in *. simpl.
  destruct (priority x =? p) eqn:E.
  - apply Z.eqb_eq in E. exfalso. apply H. now left.
  - apply IH. intros Hin. apply H. now right.
Qed.

Lemma with_priority_short p l :
  NoDup (map priority l) -> (length (with_priority p l) <= 1)%nat.
Proof.
  induction l as [|x l IH]; intros H; [simpl; lia|].
  simpl map in H. apply NoDup_cons in H as [Hx Hl].
  unfold with_priority in *. simpl.
  destruct (priority x =? p) eqn:E; [|now apply IH].
  apply Z.eqb_eq in E. subst p. simpl.
  fold (with_priority (priority x) l). rewrite with_priority_absent; [simpl; lia|].
  intros Hin. apply Hx. now apply list_elem_of_In.
Qed.

Lemma with_priority_perm p l l' :
  Permutation l l' -> Permutation (with_priority p l) (with_priority p l').
Proof.
  unfold with_priority.
  induction 1 as [|x l l' H IH|x y l|l l' l'' H1 IH1 H2 IH2]; simpl.
  - constructor.
  - destruct (priority x =? p); [now constructor|exact IH].
  - destruct (priority x =? p), (priority y =? p); try reflexivity. apply perm_swap.
  - now transitivity (List.filter (fun x => priority x =? p) l').
Qed.

Lemma sorted_by_priority_of_perm l l' :
  Permutation l l' -> NoDup (map priority l) ->
  sorted_by_priority l' = sorted_by_priority l.
Proof.
  intros Hp Hnd.
  apply stable_sort_unique; try apply sorted_by_priority_sorted.
  intros p. rewrite !sorted_by_priority_stable.
  pose proof (with_priority_perm p _ _ Hp) as Hpp.
  pose proof (with_priority_short p l Hnd) as Hs.
  destruct (with_priority p l) as [|a [|b t]]; simpl in Hs; [| |lia].
  - apply Permutation_nil. exact Hpp.
  - apply Permutation_length_1_inv in Hpp. now rewrite Hpp.
Qed.

(** X14: when the members of the intersection have pairwise different
    priorities, the returned list does not depend on the order in which
    the interpreter iterates over the set: it is the members in ascending
    priority. *)
Theorem auto_discover_server_distinct_priorities
    (ds : list string) (s_in s s' : State W) (out : list bytes)
    (domains : list (Name * list Issuer)) (common : PySet.t)
    (Hiter : forall t, Permutation (set_iteration_order t) t)
    (Hrun : auto_discover_server ds s_in = (Ok out, s'))
    (Hresolver : make_resolver s_in = (Ok tt, s))
    (Hall : collect_domains ds [] s = (Ok domains, s'))
    (Hcommon : issuers_intersection (map snd domains) = Some common)
    (Hdistinct : NoDup (map priority common)) :
  out = map issuer (sorted_by_priority common) /\
  forall p, (length (with_priority p common) <= 1)%nat.
Proof.
  split; [|intros p; now apply with_priority_short].
  rewrite (auto_discover_server_unfold _ _ _ Hresolver), Hall, Hcommon in Hrun.
  destruct common as [|x common]; [discriminate|].
  injection Hrun as <-. f_equal.
  apply sorted_by_priority_of_perm; [|exact Hdistinct].
  symmetry. apply Hiter.
Qed.

End DiscoverFacts.

(** ** Concrete runs *)

Section Runs.

Import Examples.

Example parse_validationmethods :
  parse "letsencrypt.org; validationmethods=dns-01" =
  Ok (mkCAAIssue "letsencrypt.org" {[ "validationmethods"%string := Some "dns-01"%string ]}).
Proof. vm_compute. reflexivity. Qed.

Example parse_flag :
  parse "ca.example; flag" =
  Ok (mkCAAIssue "ca.example" {[ "flag"%string := None ]}).
Proof. vm_compute. reflexivity. Qed.

Example parse_last_assignment_wins :
  get_property (parsed "ca.example; discovery=false; discovery = true") "discovery" None
  = Some "true"%string.
Proof. vm_compute. reflexivity. Qed.

Example parse_value_with_equals :
  get_property (parsed "ca.example; account=a=b") "account" None = Some "a=b"%string.
Proof. vm_compute. reflexivity. Qed.

Example directory_of_letsencrypt :
  issuer_to_directory "LetsEncrypt.ORG" = Ok "https://letsencrypt.org/.well-known/acme"%string.
Proof. reflexivity. Qed.

Example directory_of_non_ascii :
  issuer_to_directory (String (ascii_of_N 233) "cole.example") =
  Raise InvalidIssuerEncodingError.
Proof. reflexivity. Qed.

Example int_literals :
  map Bytes.int ["5"; "+5"; "-3"; "007"; "1_000"; " 12 "; "0"]%string =
    [Some 5; Some 5; Some (-3); Some 7; Some 1000; Some 12; Some 0] /\
  map Bytes.int [""; "+"; "_1"; "1_"; "1__0"; "0x10"; "1 2"; "+ 5"; "five"]%string =
    [None; None; None; None; None; None; None; None; None].
Proof. split; reflexivity. Qed.

Example wildcard_prefers_issuewild :
  select_issuers true [issue "ca1.example"; issuewild "ca2.example"] =
    Ok [mkIssuer "ca2.example" 0] /\
  select_issuers true [issue "ca1.example"] = Ok [mkIssuer "ca1.example" 0] /\
  select_issuers false [issuewild "ca2.example"] = Raise NoCAARecordsError /\
  select_issuers false [issue "ca1.example"; issuewild "ca2.example"] =
    Ok [mkIssuer "ca1.example" 0].
Proof. repeat split; vm_compute; reflexivity. Qed.

Example discovery_filter :
  select_issuers false
    [issue "ca1.example; discovery=false"; issue "ca2.example; discovery=true";
     issue "ca3.example"; issue "ca4.example; discovery"] =
  Ok [mkIssuer "ca2.example" 0; mkIssuer "ca3.example" 0].
Proof. vm_compute. reflexivity. Qed.

(** Issuers of one priority come out in the order in which the set is
    iterated, whatever the order of the records was. *)
Example ties_follow_set_iteration :
  auto_discover_server (C := plain flat) ["example.com"%string] start =
    (Ok ["ca1.example"%string; "ca2.example"%string], mkState tt [example_com]) /\
  auto_discover_server (C := backwards flat) ["example.com"%string] start =
    (Ok ["ca2.example"%string; "ca1.example"%string], mkState tt [example_com]).
Proof. split; vm_compute; reflexivity. Qed.

Example disjoint_domains :
  auto_discover_server (C := plain disjoint_zones)
    ["example.com"%string; "example.org"%string] start =
    (Raise NoCommonIssuersError, mkState tt [example_com; example_org]).
Proof. vm_compute. reflexivity. Qed.

Example read_name_examples :
  map Examples.read_name
    ["example.com"; "example.com."; "*.example.com"; ""; "."; "bad..name"; ".example"]%string =
  [Some example_com; Some example_com; Some wild_example_com; Some root; Some root;
   None; None].
Proof. reflexivity. Qed.

(** One step up: the records of example.com serve www.example.com. *)
Example walk_one_parent_step :
  find_caa (C := plain flat) www_example_com start =
  (Ok [issue "ca1.example"; issue "ca2.example"],
   mkState tt [www_example_com; example_com]).
Proof. vm_compute. reflexivity. Qed.

(** The walk of *.example.com starts at example.com. *)
Example walk_of_wildcard :
  find_caa (C := plain flat) wild_example_com start =
  (Ok [issue "ca1.example"; issue "ca2.example"], mkState tt [example_com]).
Proof. vm_compute. reflexivity. Qed.

Example walk_exhausted :
  find_caa (C := plain flat) example_org start =
  (Raise NoCAARecordsError, mkState tt [example_org; ["org"%string]]).
Proof. vm_compute. reflexivity. Qed.

(** C1, as stated, fails.  With priorities 5 and 1 in domain order the
    running set ends with priority 1, and priority 5 is gone.  In a whole
    call: example.com ranks ca1 before ca2, example.org the other way
    round, and the answer follows example.org, the later domain. *)
Lemma first_priority_is_replaced :
  issuers_intersection
    [[mkIssuer "ca1.example" 5]; [mkIssuer "ca1.example" 1]]
  = Some [mkIssuer "ca1.example" 1] /\
  ~ In (mkIssuer "ca1.example" 5) [mkIssuer "ca1.example" 1] /\
  auto_discover_server (C := plain two_zones) ["example.com"%string; "example.org"%string] start
  = (Ok ["ca2.example"%string; "ca1.example"%string],
     mkState tt [example_com; example_org]).
Proof.
  split; [reflexivity|]. split; [|vm_compute; reflexivity].
  intros [H|[]]. discriminate.
Qed.

(** C3, as stated, fails.  The resolver answers with ca1 before ca2, the
    processing order turns the two around, and the domain's issuers come
    out as ca2 before ca1, which is not what selection gives on the
    records in the resolver's order. *)
Lemma selector_gets_reordered_records :
  find_caa (C := reordering flat) example_com start =
    (Ok [issue "ca1.example"; issue "ca2.example"], mkState tt [example_com]) /\
  process_domain (C := reordering flat) "example.com" start =
    (Ok (example_com, [mkIssuer "ca2.example" 0; mkIssuer "ca1.example" 0]),
     mkState tt [example_com]) /\
  select_issuers false [issue "ca1.example"; issue "ca2.example"] =
    Ok [mkIssuer "ca1.example" 0; mkIssuer "ca2.example" 0].
Proof. repeat split; vm_compute; reflexivity. Qed.

(** C5, as stated, fails.  In [ca.example; priority] the property is
    present, nothing in it reads as an integer, and the record is accepted
    with priority 0. *)
Lemma valueless_priority_is_accepted :
  exists c,
    parse "ca.example; priority" = Ok c /\
    parameters c !! "priority"%string = Some None /\
    resolve_priority c = Ok 0 /\
    select_issuers false [issue "ca.example; priority"]
      = Ok [mkIssuer "ca.example" 0].
Proof.
  exists (parsed "ca.example; priority").
  repeat split; vm_compute; reflexivity.
Qed.

Lemma process_domain_uses_processing_order_witness :
  from_text (Collaborators := reordering flat) "example.com" = Some example_com /\
  find_caa (C := reordering flat) example_com start =
    (Ok [issue "ca1.example"; issue "ca2.example"], mkState tt [example_com]) /\
  processing_order (Collaborators := reordering flat)
    [issue "ca1.example"; issue "ca2.example"] tt =
    ([issue "ca2.example"; issue "ca1.example"], tt) /\
  process_domain (C := reordering flat) "example.com" start =
    (match select_issuers (is_wild example_com)
             [issue "ca2.example"; issue "ca1.example"] with
     | Ok issuers => Ok (example_com, issuers)
     | Raise e => Raise e
     end, mkState tt (queries (mkState tt [example_com]))) /\
  exists q w0,
    resolve (Collaborators := reordering flat) q w0 =
    (Answer (Some [issue "ca1.example"; issue "ca2.example"]),
     world (mkState tt [example_com])).
Proof.
  split; [reflexivity|]. split; [vm_compute; reflexivity|].
  split; [reflexivity|].
  apply (process_domain_uses_processing_order (C := reordering flat)
           "example.com" example_com start (mkState tt [example_com])
           [issue "ca1.example"; issue "ca2.example"]
           [issue "ca2.example"; issue "ca1.example"] tt).
  - reflexivity.
  - vm_compute. reflexivity.
  - reflexivity.
Defined.

(** C9, as stated, fails.  On a system without resolver configuration
    the call with no domain raises the resolver's configuration error, not
    the no-common-issuers error. *)
Lemma empty_list_without_resolver :
  auto_discover_server (C := unconfigured flat) [] start =
    (Raise NoResolverConfiguration, start) /\
  auto_discover_server (C := unconfigured flat) [] start <>
    (Raise NoCommonIssuersError, start).
Proof. split; [reflexivity|discriminate]. Qed.

Lemma auto_discover_server_never_empty_witness :
  (forall t, Permutation (set_iteration_order (Collaborators := plain two_zones) t) t) /\
  make_resolver (C := plain two_zones) start = (Ok tt, start) /\
  auto_discover_server (C := plain two_zones) [] start
    = (Raise NoCommonIssuersError, start) /\
  auto_discover_server (C := plain two_zones) ["example.com"%string; "example.org"%string] start
    = (Ok ["ca2.example"%string; "ca1.example"%string],
       mkState tt [example_com; example_org]) /\
  ["ca2.example"%string; "ca1.example"%string] <> [].
Proof.
  assert (Hiter : forall t,
             Permutation (set_iteration_order (Collaborators := plain two_zones) t) t)
    by (intros t; reflexivity).
  assert (Hbuilt : make_resolver (C := plain two_zones) start = (Ok tt, start))
    by reflexivity.
  assert (Hrun : auto_discover_server (C := plain two_zones)
                   ["example.com"%string; "example.org"%string] start
                 = (Ok ["ca2.example"%string; "ca1.example"%string],
                    mkState tt [example_com; example_org]))
    by (vm_compute; reflexivity).
  destruct (auto_discover_server_never_empty (C := plain two_zones) Hiter)
    as (Hnone & _ & _ & Hsome).
  split; [exact Hiter|]. split; [exact Hbuilt|].
  split; [exact (Hnone start start Hbuilt)|].
  split; [exact Hrun|]. exact (Hsome _ _ _ _ Hrun).
Defined.


(** C2, as stated, fails.  The records of example.com name ca1 before
    ca2, both without priority; so do the issuer list of the domain and
    the set made of it; the set is iterated from ca2 to ca1, and the call
    returns ca2 before ca1. *)
Lemma ties_leave_record_order :
  process_domain (C := backwards flat) "example.com" start =
    (Ok (example_com, [mkIssuer "ca1.example" 0; mkIssuer "ca2.example" 0]),
     mkState tt [example_com]) /\
  issuers_intersection [[mkIssuer "ca1.example" 0; mkIssuer "ca2.example" 0]] =
    Some [mkIssuer "ca1.example" 0; mkIssuer "ca2.example" 0] /\
  auto_discover_server (C := backwards flat) ["example.com"%string] start =
    (Ok ["ca2.example"%string; "ca1.example"%string], mkState tt [example_com]).
Proof. repeat split; vm_compute; reflexivity. Qed.

Lemma auto_discover_server_sorted_witness :
  (forall t, Permutation (set_iteration_order (Collaborators := backwards flat) t) t) /\
  auto_discover_server (C := backwards flat) ["example.com"%string] start
    = (Ok ["ca2.example"%string; "ca1.example"%string], mkState tt [example_com]) /\
  exists s0 domains common ranked,
    make_resolver (C := backwards flat) start = (Ok tt, s0) /\
    collect_domains (C := backwards flat) ["example.com"%string] [] s0
      = (Ok domains, mkState tt [example_com]) /\
    issuers_intersection (map snd domains) = Some common /\
    (forall id, has_id id common <-> Forall (has_id id) (map snd domains)) /\
    ["ca2.example"%string; "ca1.example"%string] = map issuer ranked /\
    NoDup ["ca2.example"%string; "ca1.example"%string] /\
    Permutation ranked common /\
    StronglySorted priority_le ranked /\
    (forall p,
       with_priority p ranked =
       with_priority p (set_iteration_order (Collaborators := backwards flat) common)) /\
    (forall other,
       StronglySorted priority_le other ->
       (forall p,
          with_priority p other =
          with_priority p (set_iteration_order (Collaborators := backwards flat) common)) ->
       other = ranked).
Proof.
  assert (Hiter : forall t,
             Permutation (set_iteration_order (Collaborators := backwards flat) t) t)
    by (intros t; symmetry; apply Permutation_rev).
  split; [exact Hiter|]. split; [vm_compute; reflexivity|].
  apply (auto_discover_server_sorted (C := backwards flat)
           ["example.com"%string] start (mkState tt [example_com])).
  - exact Hiter.
  - vm_compute. reflexivity.
Defined.

End Runs.

(** ** Further runs *)

Section MoreRuns.

Import Examples.

Lemma parse_output_shape_witness :
  parse " ca.example ; account = a=b ; flag " =
    Ok (parsed " ca.example ; account = a=b ; flag ") /\
  (ParseSpec.occurs ";" (caa_issuer (parsed " ca.example ; account = a=b ; flag ")) = false /\
   trimmed (caa_issuer (parsed " ca.example ; account = a=b ; flag "))) /\
  forall name v,
    parameters (parsed " ca.example ; account = a=b ; flag ") !! name = Some v ->
    ParseSpec.occurs ";" name = false /\ ParseSpec.occurs "=" name = false /\
    trimmed name /\
    forall t, v = Some t -> ParseSpec.occurs ";" t = false /\ trimmed t.
Proof.
  split; [vm_compute; reflexivity|].
  apply (parse_output_shape " ca.example ; account = a=b ; flag ").
  vm_compute. reflexivity.
Defined.

Lemma select_issuers_priorities_witness :
  select_issuers false [issue "ca1.example; priority=3"; issue "ca2.example"] =
    Ok [mkIssuer "ca1.example" 3; mkIssuer "ca2.example" 0] /\
  Forall (fun i => 0 <= priority i)
    [mkIssuer "ca1.example" 3; mkIssuer "ca2.example" 0].
Proof.
  assert (H : select_issuers false
                [issue "ca1.example; priority=3"; issue "ca2.example"] =
              Ok [mkIssuer "ca1.example" 3; mkIssuer "ca2.example" 0])
    by (vm_compute; reflexivity).
  split; [exact H|].
  exact (proj1 (select_issuers_priorities _ _ _ H)).
Defined.

Lemma select_issuers_visible_records_witness :
  visible_records [mkRdata 128 "issue" "ca1.example"; mkRdata 0 "iodef" "mailto:ca@example.com"] =
    visible_records [issue "ca1.example"] /\
  select_issuers false
    [mkRdata 128 "issue" "ca1.example"; mkRdata 0 "iodef" "mailto:ca@example.com"] =
  select_issuers false [issue "ca1.example"].
Proof.
  split; [reflexivity|].
  apply select_issuers_visible_records. reflexivity.
Defined.

Lemma issuer_to_directory_up_to_case_witness :
  (issuer_to_directory "LetsEncrypt.ORG" = issuer_to_directory "letsencrypt.org" <->
   lower "LetsEncrypt.ORG" = lower "letsencrypt.org") /\
  issuer_to_directory (lower "LetsEncrypt.ORG") = issuer_to_directory "LetsEncrypt.ORG".
Proof.
  apply issuer_to_directory_up_to_case; apply forallb_is_ascii; reflexivity.
Defined.

Lemma unreadable_domain_aborts_witness :
  from_text (Collaborators := plain flat) "bad..name" = None /\
  auto_discover_server (C := plain flat)
    ["example.com"%string; "bad..name"%string; "www.example.com"%string] start =
    (Raise DomainParseError, mkState tt [example_com]).
Proof.
  split; [reflexivity|].
  apply (unreadable_domain_aborts (C := plain flat)
           ["example.com"%string] ["www.example.com"%string] "bad..name"
           start start (mkState tt [example_com])
           [(example_com, [mkIssuer "ca1.example" 0; mkIssuer "ca2.example" 0])]).
  - reflexivity.
  - vm_compute. reflexivity.
  - reflexivity.
Defined.

Lemma auto_discover_server_errors_witness :
  auto_discover_server (C := plain disjoint_zones)
    ["example.com"%string; "example.org"%string] start =
    (Raise NoCommonIssuersError, mkState tt [example_com; example_org]) /\
  ((NoCommonIssuersError = NoResolverConfiguration /\
    make_resolver (C := plain disjoint_zones) start =
      (Raise NoResolverConfiguration, mkState tt [example_com; example_org]) /\
    queries (mkState tt [example_com; example_org]) = queries start)
   \/
   (exists s0,
      make_resolver (C := plain disjoint_zones) start = (Ok tt, s0) /\
      discovery_error NoCommonIssuersError /\
      ((exists before text rest done s1,
          ["example.com"%string; "example.org"%string] = before ++ text :: rest /\
          collect_domains (C := plain disjoint_zones) before [] s0 = (Ok done, s1) /\
          process_domain (C := plain disjoint_zones) text s1 =
            (Raise NoCommonIssuersError, mkState tt [example_com; example_org]))
       \/
       (NoCommonIssuersError = NoCommonIssuersError /\
        exists domains,
          collect_domains (C := plain disjoint_zones)
            ["example.com"%string; "example.org"%string] [] s0 =
            (Ok domains, mkState tt [example_com; example_org]) /\
          (domains = [] \/
           forall id, ~ Forall (has_id id) (map snd domains)))))).
Proof.
  assert (H : auto_discover_server (C := plain disjoint_zones)
                ["example.com"%string; "example.org"%string] start =
              (Raise NoCommonIssuersError, mkState tt [example_com; example_org]))
    by (vm_compute; reflexivity).
  split; [exact H|].
  exact (auto_discover_server_errors (C := plain disjoint_zones) _ _ _ _ H).
Defined.

Lemma auto_discover_server_returns_witness :
  collect_domains (C := plain two_zones)
    ["example.com"%string; "example.org"%string] [] start =
    (Ok [(example_com, [mkIssuer "ca1.example" 1; mkIssuer "ca2.example" 2]);
         (example_org, [mkIssuer "ca1.example" 2; mkIssuer "ca2.example" 1])],
     mkState tt [example_com; example_org]) /\
  ((exists out,
      auto_discover_server (C := plain two_zones)
        ["example.com"%string; "example.org"%string] start =
      (Ok out, mkState tt [example_com; example_org])) <->
   ([(example_com, [mkIssuer "ca1.example" 1; mkIssuer "ca2.example" 2]);
     (example_org, [mkIssuer "ca1.example" 2; mkIssuer "ca2.example" 1])] <> [] /\
    exists id,
      Forall (has_id id)
        (map snd
           [(example_com, [mkIssuer "ca1.example" 1; mkIssuer "ca2.example" 2]);
            (example_org, [mkIssuer "ca1.example" 2; mkIssuer "ca2.example" 1])]))).
Proof.
  split; [vm_compute; reflexivity|].
  apply (auto_discover_server_returns (C := plain two_zones) _ start start).
  - reflexivity.
  - vm_compute. reflexivity.
Defined.

Lemma auto_discover_server_distinct_priorities_witness :
  NoDup (map priority [mkIssuer "ca1.example" 2; mkIssuer "ca2.example" 1]) /\
  ["ca2.example"%string; "ca1.example"%string] =
    map issuer
      (sorted_by_priority [mkIssuer "ca1.example" 2; mkIssuer "ca2.example" 1]) /\
  forall p,
    (length (with_priority p [mkIssuer "ca1.example" 2; mkIssuer "ca2.example" 1]) <= 1)%nat.
Proof.
  assert (Hd : NoDup (map priority [mkIssuer "ca1.example" 2; mkIssuer "ca2.example" 1])).
  { simpl. apply NoDup_cons. split; [|apply NoDup_singleton].
    intros H. apply list_elem_of_In in H. destruct H as [H|[]]. discriminate. }
  split; [exact Hd|].
  apply (auto_discover_server_distinct_priorities (C := plain two_zones)
           ["example.com"%string; "example.org"%string] start start
           (mkState tt [example_com; example_org])
           ["ca2.example"%string; "ca1.example"%string]
           [(example_com, [mkIssuer "ca1.example" 1; mkIssuer "ca2.example" 2]);
            (example_org, [mkIssuer "ca1.example" 2; mkIssuer "ca2.example" 1])]).
  - intros t. reflexivity.
  - vm_compute. reflexivity.
  - reflexivity.
  - vm_compute. reflexivity.
  - reflexivity.
  - exact Hd.
Defined.

End MoreRuns.
